(** * Geometric transforms of the IAM handwriting pipeline

    A shallow embedding of [src/transforms.py]: the three custom geometric
    operators ([randomly_displace_and_pad], [dpi_adjusting],
    [SafeRandomScale.apply]) and the pipeline construction of
    [IAMImageTransforms.__post_init__], together with the part of the Python
    and NumPy run time they rely on.

    Line numbers are those of [src/transforms.py].

    Conventions of the embedding.
    - Python [int] is [Z]; array extents (entries of [ndarray.shape]) are
      [nat], since NumPy never holds a negative extent.
    - Python [float] is IEEE 754 binary64. A finite float is kept as the
      rational number it denotes; there are the two infinities and NaN.
      Every product and sum is the exact result rounded to the nearest
      value of the format, ties to even, with gradual underflow and with
      overflow to an infinity. The sign of a zero is not kept: no operation
      used by the module tells the two zeros apart.
    - A two-dimensional [np.ndarray] is a record of its dtype, its shape and
      its rows; the element type is a parameter, since the operators only
      copy elements and write zeros.
    - Exceptions, the process-wide random source of the [random] module and
      the text written by [print] are threaded through a state-and-error
      monad. *)

From Stdlib Require Import ZArith QArith Qround Qpower Lia Lqa SpecFloat.
From stdpp Require Import base list strings pretty.

Close Scope Q_scope.
Close Scope Z_scope.

(* ===================================================================== *)
(** ** Python run time *)
(* ===================================================================== *)

Module Py.

(** The exceptions that the modelled code can raise. *)
Inductive exn : Type :=
| AssertionError (msg : string)
| ValueError (msg : string)
| OverflowError (msg : string)
| CvError (msg : string).

(** Result of a computation that may raise. *)
Inductive outcome (A : Type) : Type :=
| Ok (a : A)
| Raise (e : exn).
Arguments Ok {A} a.
Arguments Raise {A} e.

(** Sequencing of calls that may raise and have no other effect. *)
Definition and_then {A B} (o : outcome A) (k : A -> outcome B) : outcome B :=
  match o with
  | Ok a => k a
  | Raise e => Raise e
  end.

(** The ambient state: the shared generator of the [random] module, seen
    as a stream of raw draws with a read position, and standard output. *)
Record world : Type := World {
  entropy : nat -> Z;
  cursor : nat;
  stdout : list string
}.

(** Computations: read and update the world, return a value or raise. *)
Definition M (A : Type) : Type := world -> outcome A * world.

Definition ret {A} (a : A) : M A := fun w => (Ok a, w).

Definition bind {A B} (m : M A) (k : A -> M B) : M B :=
  fun w => match m w with
           | (Ok a, w') => k a w'
           | (Raise e, w') => (Raise e, w')
           end.

Definition raise {A} (e : exn) : M A := fun w => (Raise e, w).

(** A pure fallible call made inside a computation. *)
Definition lift {A} (o : outcome A) : M A := fun w => (o, w).

(** [print(line)] *)
Definition print (line : string) : M unit :=
  fun w => (Ok tt, World (entropy w) (cursor w) (stdout w ++ [line])).

(** [random.randint(a, b)]: an integer of the closed range [a..b], taken
    from the next raw draw; [ValueError] on an empty range. *)
Definition randint (a b : Z) : M Z :=
  fun w =>
    if (b <? a)%Z then (Raise (ValueError "empty range for randrange()"), w)
    else (Ok (a + entropy w (cursor w) `mod` (b - a + 1))%Z,
          World (entropy w) (S (cursor w)) (stdout w)).

(** *** Floats *)

Section Binary64.
Local Open Scope Q_scope.

Definition pow2 (e : Z) : Q := 2 ^ e.

(** The binade of a positive rational: [2^(ilog2 a) <= a < 2^(ilog2 a + 1)]. *)
Definition ilog2 (a : Q) : Z :=
  let k := (Z.log2 (Qnum a) - Z.log2 (Z.pos (Qden a)))%Z in
  if Qle_bool (pow2 k) a then k else (k - 1)%Z.

(** The exponent of the last place of the binade [e]: 53 bits of
    precision, and no exponent below that of the subnormal numbers. *)
Definition fexp (e : Z) : Z := Z.max (e - 52) (-1074).

(** The nearest integer, a tie going to the even one. *)
Definition rint (x : Q) : Z :=
  let f := Qfloor x in
  match Qcompare (x - inject_Z f) (1 # 2) with
  | Lt => f
  | Eq => if Z.even f then f else (f + 1)%Z
  | Gt => (f + 1)%Z
  end.

Definition rnd_pos (a : Q) : Q :=
  let e := fexp (ilog2 a) in inject_Z (rint (a / pow2 e)) * pow2 e.

(** The nearest value of the format with an exponent as large as needed,
    ties to even. *)
Definition rnd (x : Q) : Q :=
  match Qcompare x 0 with
  | Eq => 0
  | Gt => rnd_pos x
  | Lt => - rnd_pos (- x)
  end.

Inductive float : Type :=
| Finite (q : Q)
| Infinity (negative : bool)
| NaN.

(** The float that an exact result becomes: the rounded value, or an
    infinity when that value is out of the range of the format. *)
Definition fl (x : Q) : float :=
  let r := rnd x in
  if Qle_bool (pow2 1024) r then Infinity false
  else if Qle_bool r (- pow2 1024) then Infinity true
  else Finite (Qred r).

(** A decimal literal of the source, such as [0.1]. *)
Definition literal (q : Q) : float := fl q.

(** [x * y] on floats *)
Definition fmul (x y : float) : float :=
  match x, y with
  | Finite a, Finite b => fl (a * b)
  | Finite a, Infinity s | Infinity s, Finite a =>
      match Qcompare a 0 with
      | Eq => NaN
      | Gt => Infinity s
      | Lt => Infinity (negb s)
      end
  | Infinity s, Infinity t => Infinity (xorb s t)
  | NaN, _ | _, NaN => NaN
  end.

(** [x + y] on floats *)
Definition fadd (x y : float) : float :=
  match x, y with
  | Finite a, Finite b => fl (a + b)
  | Finite _, Infinity s | Infinity s, Finite _ => Infinity s
  | Infinity s, Infinity t => if Bool.eqb s t then Infinity s else NaN
  | NaN, _ | _, NaN => NaN
  end.

(** An [int] operand of a float operation is converted first, and the
    conversion refuses an integer beyond the range of the format. *)
Definition float_of_int (n : Z) : outcome float :=
  match fl (inject_Z n) with
  | Finite q => Ok (Finite q)
  | _ => Raise (OverflowError "int too large to convert to float")
  end.

(** The conversions of a float to an [int] refuse the infinities and
    NaN. *)
Definition to_integer (integer : Q -> Z) (x : float) : outcome Z :=
  match x with
  | Finite q => Ok (integer q)
  | Infinity _ =>
      Raise (OverflowError "cannot convert float infinity to integer")
  | NaN => Raise (ValueError "cannot convert float NaN to integer")
  end.

(** Truncation towards zero. *)
Definition trunc (q : Q) : Z :=
  if Qle_bool 0 q then Qfloor q else Qceiling q.

(** [int(x)] on a float *)
Definition int : float -> outcome Z := to_integer trunc.

(** [math.ceil(x)] *)
Definition ceil : float -> outcome Z := to_integer Qceiling.

(** [math.floor(x)] *)
Definition floor : float -> outcome Z := to_integer Qfloor.

End Binary64.

End Py.

Import Py.

Declare Scope py_scope.
Delimit Scope py_scope with py.
Notation "'do' x <~ m ; k" := (bind m (fun x => k))
  (at level 10, x name, m at level 100, k at level 200) : py_scope.
Notation "'do_' m ; k" := (bind m (fun _ => k))
  (at level 10, m at level 100, k at level 200) : py_scope.
Notation "'get' x <~ m ; k" := (and_then m (fun x => k))
  (at level 10, x name, m at level 100, k at level 200) : py_scope.

(* ===================================================================== *)
(** ** NumPy arrays of rank two *)
(* ===================================================================== *)

Module Np.

(** Element types of the images that reach the pipeline. *)
Inductive dtype_t : Type := uint8 | int32 | int64 | float32 | float64.

Section Arrays.
Context {px : Type}.

Record ndarray : Type := NdArray {
  dtype : dtype_t;
  shape : nat * nat;
  rows : list (list px)
}.

Definition height (a : ndarray) : nat := fst (shape a).
Definition width (a : ndarray) : nat := snd (shape a).

(** The rows agree with the shape. *)
Definition wf (a : ndarray) : Prop :=
  length (rows a) = height a /\
  Forall (fun r => length r = width a) (rows a).

#[global] Instance wf_dec (a : ndarray) : Decision (wf a).
Proof. unfold wf. apply _. Defined.

(** [a[i, j]], for indices that are in range. *)
Definition pixel (a : ndarray) (i j : nat) : option px :=
  rows a !! i ≫= fun r => r !! j.

(** Bound of a slice on an axis of extent [len], as Python normalises
    it (step 1): a negative bound counts from the end, and the result
    is clipped to [0..len]. *)
Definition slice_index (len : nat) (k : Z) : nat :=
  Z.to_nat (Z.min (Z.of_nat len)
              (Z.max 0 (if (k <? 0)%Z then k + Z.of_nat len else k))).

(** The index range [start:stop] on an axis: first index and count. *)
Definition slice_range (len : nat) (start stop : Z) : nat * nat :=
  let s := slice_index len start in
  let e := slice_index len stop in
  (s, e - s).

(** [l[start:stop]] on one axis. *)
Definition slice_list {A} (l : list A) (rg : nat * nat) : list A :=
  take (snd rg) (drop (fst rg) l).

(** [a[r0:r1, c0:c1]] *)
Definition getitem (a : ndarray) (r0 r1 c0 c1 : Z) : ndarray :=
  let rr := slice_range (height a) r0 r1 in
  let cr := slice_range (width a) c0 c1 in
  NdArray (dtype a) (snd rr, snd cr)
    ((fun r => slice_list r cr) <$> slice_list (rows a) rr).

(** [np.zeros((h, w), dtype=dt)] *)
Definition zeros (zero : px) (h w : Z) (dt : dtype_t) : outcome ndarray :=
  if ((h <? 0) || (w <? 0))%Z
  then Raise (ValueError "negative dimensions are not allowed")
  else Ok (NdArray dt (Z.to_nat h, Z.to_nat w)
             (replicate (Z.to_nat h) (replicate (Z.to_nat w) zero))).

(** Broadcasting along one axis: extent [n] fits a target of extent
    [m] when they agree or [n] is 1. *)
Definition broadcastable (n m : nat) : bool :=
  (n =? m) || (n =? 1).

(** [l] stretched to [m] entries under the broadcasting rule. *)
Definition broadcast_list {A} (l : list A) (m : nat) : list A :=
  if length l =? m then l
  else match l with
       | x :: _ => replicate m x
       | [] => []
       end.

(** The array [src] as it is seen by an assignment to a target of
    shape [(th, tw)]. *)
Definition broadcast_rows (src : ndarray) (th tw : nat) : list (list px) :=
  broadcast_list ((fun r => broadcast_list r tw) <$> rows src) th.

(** [r[c0:c0+n] = new] on one row. *)
Definition splice {A} (old : list A) (cr : nat * nat) (new : list A) : list A :=
  take (fst cr) old ++ new ++ drop (fst cr + snd cr) old.

(** [res[r0:r1, c0:c1] = src]: the updated array, or [ValueError]
    when the shape of [src] does not broadcast to the slice. *)
Definition setitem (res : ndarray) (r0 r1 c0 c1 : Z) (src : ndarray)
  : outcome ndarray :=
  let rr := slice_range (height res) r0 r1 in
  let cr := slice_range (width res) c0 c1 in
  if broadcastable (height src) (snd rr) && broadcastable (width src) (snd cr)
  then
    let old := slice_list (rows res) rr in
    let new := zip_with (fun o n => splice o cr n) old
                 (broadcast_rows src (snd rr) (snd cr)) in
    Ok (NdArray (dtype res) (shape res) (splice (rows res) rr new))
  else Raise (ValueError "could not broadcast input array").

End Arrays.
Arguments ndarray : clear implicits.

End Np.

Import Np.

(* ===================================================================== *)
(** ** External collaborators *)
(* ===================================================================== *)

(** OpenCV and albumentations are not part of the repository. The
    operators use two of their functions, which are taken as interfaces. *)

Inductive interpolation : Type :=
  INTER_NEAREST | INTER_LINEAR | INTER_CUBIC | INTER_AREA | INTER_LANCZOS4.

Inductive border_mode : Type :=
  BORDER_CONSTANT | BORDER_REPLICATE | BORDER_REFLECT | BORDER_WRAP
| BORDER_REFLECT_101.

(** [cv.resize(src, dsize, interpolation=...)], with [dsize] given as
    (width, height). What is assumed of it is OpenCV's contract on sizes:
    the result has [dsize[1]] rows and [dsize[0]] columns; the call
    succeeds on a source that is not empty and a [dsize] that is positive,
    and raises [cv2.error] on any other. *)
Class OpenCV (px : Type) : Type := {
  cv_resize : ndarray px -> Z * Z -> interpolation -> outcome (ndarray px);
  cv_resize_shape : forall src dsize_w dsize_h ip out,
    cv_resize src (dsize_w, dsize_h) ip = Ok out ->
    shape out = (Z.to_nat dsize_h, Z.to_nat dsize_w);
  cv_resize_total : forall src dsize_w dsize_h ip,
    0 < height src -> 0 < width src ->
    (0 < dsize_w)%Z -> (0 < dsize_h)%Z ->
    exists out, cv_resize src (dsize_w, dsize_h) ip = Ok out;
  cv_resize_rejects : forall src dsize_w dsize_h ip,
    height src = 0 \/ width src = 0 \/
    (dsize_w <= 0)%Z \/ (dsize_h <= 0)%Z ->
    exists msg, cv_resize src (dsize_w, dsize_h) ip = Raise (CvError msg)
}.

(** [albumentations.RandomScale.apply(img, scale, interpolation)], the
    method that [SafeRandomScale] overrides and calls through [super()]. *)
Class Albumentations (px : Type) : Type := {
  RandomScale_apply :
    ndarray px -> float -> interpolation -> outcome (ndarray px)
}.

(* ===================================================================== *)
(** ** The transforms of [src/transforms.py] *)
(* ===================================================================== *)

Module Transforms.

Section Operators.
Context {px : Type} (zero : px).
Local Open Scope py_scope.
Local Open Scope Z_scope.

Definition crop_warning : string :=
  "WARNING (`randomly_displace_and_pad`): cropping input image before padding because it exceeds the size of the frame.".

Definition frame_error (frame_h frame_w img_h img_w : Z) : exn :=
  AssertionError
    ("Frame is smaller than the image: (" +:+ pretty frame_h +:+ ", "
     +:+ pretty frame_w +:+ ") vs. (" +:+ pretty img_h +:+ ", "
     +:+ pretty img_w +:+ ")").

(** Lines 29-41: the image and the extents [img_h], [img_w] with which
    the function goes on. *)
Definition fit_to_frame (img : ndarray px) (frame_h frame_w : Z)
    (crop_if_necessary : bool) : M (ndarray px * Z * Z) :=
  let img_h := Z.of_nat (height img) in
  let img_w := Z.of_nat (width img) in
  if (frame_h <? img_h) || (frame_w <? img_w) then
    if crop_if_necessary then
      do_ print crop_warning;
      let img_h := Z.min img_h frame_h in
      let img_w := Z.min img_w frame_w in
      let img := getitem img 0 img_h 0 img_w in
      ret (img, img_h, img_w)
    else raise (frame_error frame_h frame_w img_h img_w)
  else ret (img, img_h, img_w).

(** Lines 43-51: the zero canvas, the two draws and the copy. *)
Definition place (img : ndarray px) (img_h img_w frame_h frame_w : Z)
  : M (ndarray px) :=
  do res <~ lift (zeros zero frame_h frame_w (dtype img));
  do pad_top <~ randint 0 (frame_h - img_h);
  let pad_bottom := pad_top + img_h in
  do pad_left <~ randint 0 (frame_w - img_w);
  let pad_right := pad_left + img_w in
  lift (setitem res pad_top pad_bottom pad_left pad_right img).

Definition randomly_displace_and_pad (img : ndarray px)
    (padded_size : Z * Z) (crop_if_necessary : bool) : M (ndarray px) :=
  let frame_h := fst padded_size in
  let frame_w := snd padded_size in
  do fitted <~ fit_to_frame img frame_h frame_w crop_if_necessary;
  place (fst (fst fitted)) (snd (fst fitted)) (snd fitted) frame_h frame_w.

(** Line 56, one axis: [math.ceil(height * scale)], the product of an
    [int] and a float. *)
Definition dpi_extent (n : nat) (scale : float) : outcome Z :=
  get extent <~ float_of_int (Z.of_nat n);
  ceil (fmul extent scale).

(** Lines 54-57. [cv.resize] is called with its default
    interpolation. *)
Definition dpi_adjusting `{OpenCV px} (img : ndarray px) (scale : float)
  : outcome (ndarray px) :=
  get new_height <~ dpi_extent (height img) scale;
  get new_width <~ dpi_extent (width img) scale;
  cv_resize img (new_width, new_height) INTER_LINEAR.

(** Line 65, one axis: [int(height * scale)]. *)
Definition scale_extent (n : nat) (scale : float) : outcome Z :=
  get extent <~ float_of_int (Z.of_nat n);
  int (fmul extent scale).

(** Lines 63-68: [SafeRandomScale.apply]. The defaults of the
    signature are [scale=0] and [interpolation=cv.INTER_LINEAR]. *)
Definition SafeRandomScale_apply `{Albumentations px} (img : ndarray px)
    (scale : float) (interpolation : interpolation)
  : outcome (ndarray px) :=
  get new_height <~ scale_extent (height img) scale;
  get new_width <~ scale_extent (width img) scale;
  if (new_height <=? 0) || (new_width <=? 0) then Ok img
  else RandomScale_apply img scale interpolation.

End Operators.

(** *** Pipelines *)

(** The callables wrapped by [A.Lambda]: a function of this module with
    some keyword arguments fixed by [functools.partial]. *)
Inductive partial : Type :=
| partial_dpi_adjusting (scale : float)
| partial_randomly_displace_and_pad
    (padded_size : Z * Z) (crop_if_necessary : bool).

(** The stages that [__post_init__] builds, each with the arguments it
    is given there. *)
Inductive transform : Type :=
| Lambda (image : partial)
| SafeRandomScale (scale_limit : float) (p : float)
| SafeRotate (limit : Z) (border : border_mode) (value : Z)
| RandomBrightnessContrast
| Perspective (scale : float * float)
| GaussNoise
| Normalize (mean std : float)
| PadIfNeeded (min_height min_width : Z) (border : border_mode) (value : Z).

(** What an [A.Lambda] stage does to an image: it calls the function
    with the arguments that were fixed. *)
Definition call {px : Type} `{OpenCV px} (zero : px) (f : partial)
    (img : ndarray px) : M (ndarray px) :=
  match f with
  | partial_dpi_adjusting scale => lift (dpi_adjusting img scale)
  | partial_randomly_displace_and_pad padded_size crop_if_necessary =>
      randomly_displace_and_pad zero img padded_size crop_if_necessary
  end.

(** [A.Compose([...])] *)
Inductive compose : Type := Compose (transforms : list transform).

Definition stages (c : compose) : list transform :=
  match c with Compose ts => ts end.

(** The dataclass, after a successful construction. *)
Record IAMImageTransforms : Type := {
  max_img_size : Z * Z;
  parse_method : string;
  normalize_params : float * float;
  scale : float;
  random_scale_limit : float;
  random_rotate_limit : Z;
  train_trnsf : compose;
  test_trnsf : compose
}.

(** Defaults of the dataclass fields. *)
Definition default_scale : float := literal (1 # 2).
Definition default_random_scale_limit : float := literal (1 # 10).
Definition default_random_rotate_limit : Z := 10.

Section PostInit.
Local Open Scope py_scope.

(** Line 100. *)
Definition max_scale (scale random_scale_limit : float) : float :=
  fadd scale (fmul scale random_scale_limit).

(** Lines 100-104: the padded frame, each extent the [math.ceil] of the
    product of a float and an [int]. *)
Definition padded_size_of (scale random_scale_limit : float)
    (max_img_size : Z * Z) : outcome (Z * Z) :=
  let max_img_h := fst max_img_size in
  let max_img_w := snd max_img_size in
  let max_scale := max_scale scale random_scale_limit in
  get extent_h <~ float_of_int max_img_h;
  get padded_h <~ ceil (fmul max_scale extent_h);
  get extent_w <~ float_of_int max_img_w;
  get padded_w <~ ceil (fmul max_scale extent_w);
  Ok (padded_h, padded_w).

(** Lines 106-183: the two pipelines for the parse method, given the
    padded frame of lines 100-104. *)
Definition build_pipelines (max_img_size : Z * Z) (parse_method : string)
    (normalize_params : float * float) (scale random_scale_limit : float)
    (random_rotate_limit : Z) (padded_h padded_w : Z)
  : outcome IAMImageTransforms :=
  let max_img_h := fst max_img_size in
  let max_img_w := snd max_img_size in
  let self := Build_IAMImageTransforms max_img_size parse_method
                normalize_params scale random_scale_limit
                random_rotate_limit in
  if String.eqb parse_method "word" then
    Ok (self
      (Compose
        [ Lambda (partial_dpi_adjusting scale);
          SafeRandomScale random_scale_limit (literal (1 # 2));
          SafeRotate random_rotate_limit BORDER_CONSTANT 0;
          RandomBrightnessContrast;
          GaussNoise;
          Normalize (fst normalize_params) (snd normalize_params) ])
      (Compose
        [ Lambda (partial_dpi_adjusting scale);
          Normalize (fst normalize_params) (snd normalize_params) ]))
  else if String.eqb parse_method "line" then
    Ok (self
      (Compose
        [ Lambda (partial_dpi_adjusting scale);
          SafeRandomScale random_scale_limit (literal (1 # 2));
          SafeRotate random_rotate_limit BORDER_CONSTANT 0;
          RandomBrightnessContrast;
          GaussNoise;
          Normalize (fst normalize_params) (snd normalize_params) ])
      (Compose
        [ Lambda (partial_dpi_adjusting scale);
          Normalize (fst normalize_params) (snd normalize_params) ]))
  else if String.eqb parse_method "form" then
    Ok (self
      (Compose
        [ Lambda (partial_dpi_adjusting scale);
          SafeRandomScale random_scale_limit (literal (1 # 2));
          SafeRotate random_rotate_limit BORDER_CONSTANT 0;
          RandomBrightnessContrast;
          Perspective (literal (3 # 100), literal (5 # 100));
          GaussNoise;
          Normalize (fst normalize_params) (snd normalize_params);
          Lambda (partial_randomly_displace_and_pad
                    (padded_h, padded_w) true) ])
      (Compose
        [ Lambda (partial_dpi_adjusting scale);
          Normalize (fst normalize_params) (snd normalize_params);
          PadIfNeeded max_img_h max_img_w BORDER_CONSTANT 0 ]))
  else
    Raise (ValueError (parse_method +:+ " is not a valid parse method.")).

(** Lines 91-183: the generated [__init__] stores the six fields and
    calls [__post_init__], which computes the padded frame and builds both
    pipelines, or raises. *)
Definition post_init (max_img_size : Z * Z) (parse_method : string)
    (normalize_params : float * float) (scale random_scale_limit : float)
    (random_rotate_limit : Z) : outcome IAMImageTransforms :=
  get padded <~ padded_size_of scale random_scale_limit max_img_size;
  build_pipelines max_img_size parse_method normalize_params scale
    random_scale_limit random_rotate_limit (fst padded) (snd padded).

End PostInit.

End Transforms.

Import Transforms.

(* ===================================================================== *)
(** ** Vocabulary of the statements *)
(* ===================================================================== *)

(** The world after [k] draws. *)
Definition drawn (k : nat) (w : world) : world :=
  World (entropy w) (k + cursor w) (stdout w).

(** The world after a line was printed. *)
Definition printed (line : string) (w : world) : world :=
  World (entropy w) (cursor w) (stdout w ++ [line]).

(** The value that [randint 0 n] makes of raw draw number [k] from the
    read position. *)
Definition offset (w : world) (k : nat) (n : Z) : Z :=
  (0 + entropy w (k + cursor w) `mod` (n - 0 + 1))%Z.

(** The window of [res] at row [t] and column [l] holds [src]: what an
    assignment [res[t:t+h, l:l+w] = src] needs to copy [src] as it is. *)
Definition window_fits {px} (res src : ndarray px) (t l : Z) : Prop :=
  wf res /\ wf src /\ (0 <= t)%Z /\ (0 <= l)%Z /\
  (t + Z.of_nat (height src) <= Z.of_nat (height res))%Z /\
  (l + Z.of_nat (width src) <= Z.of_nat (width res))%Z.

(** The zero canvas of a frame. *)
Definition canvas {px} (zero : px) (frame_h frame_w : Z) (dt : dtype_t)
  : ndarray px :=
  NdArray dt (Z.to_nat frame_h, Z.to_nat frame_w)
    (replicate (Z.to_nat frame_h) (replicate (Z.to_nat frame_w) zero)).

(** The image as line 36 crops it. *)
Definition cropped {px} (img : ndarray px) (frame_h frame_w : Z)
  : ndarray px :=
  getitem img 0 (Z.min (Z.of_nat (height img)) frame_h)
              0 (Z.min (Z.of_nat (width img)) frame_w).

(** The rational [q] is a finite value of binary64: rounding leaves it
    as it is, and it is within the range of the format. *)
Definition binary64 (q : Q) : Prop :=
  (rnd q == q /\ - pow2 1024 < q /\ q < pow2 1024)%Q.

(** The candidate extent [floor (n * scale)], the product being that of
    line 65. *)
Definition floor_extent (n : nat) (scale : float) : outcome Z :=
  (get extent <~ float_of_int (Z.of_nat n);
   floor (fmul extent scale))%py.

(** The frame that [__post_init__] computes holds an image of [h] by [w]
    pixels after DPI adjustment by [scale] followed by random scaling by
    the factor [f]. *)
Definition frame_holds (scale limit : float) (max_img_size : Z * Z)
    (h w : nat) (f : float) : Prop :=
  exists padded_h padded_w dpi_h dpi_w new_h new_w,
    padded_size_of scale limit max_img_size = Ok (padded_h, padded_w) /\
    dpi_extent h scale = Ok dpi_h /\
    dpi_extent w scale = Ok dpi_w /\
    scale_extent (Z.to_nat dpi_h) f = Ok new_h /\
    scale_extent (Z.to_nat dpi_w) f = Ok new_w /\
    (new_h <= padded_h)%Z /\ (new_w <= padded_w)%Z.

(* ===================================================================== *)
(** ** Reference inputs *)
(* ===================================================================== *)

(** A random source whose raw draws are 1, 2, 3, ... *)
Definition counting_world : world :=
  World (fun n => Z.of_nat n + 1)%Z 0 [].

(** The [h] by [w] image of type [uint8] whose pixel at [(i, j)] is
    [i * w + j]. *)
Definition ramp (h w : nat) : ndarray Z :=
  NdArray uint8 (h, w)
    ((fun i => (fun j => Z.of_nat (i * w + j)) <$> seq 0 w) <$> seq 0 h).

(** The 2 by 3 ramp in the frame (4, 5), one row down and two columns to
    the right. *)
Definition ramp_in_frame : ndarray Z :=
  NdArray uint8 (4, 5)
    [ [0; 0; 0; 0; 0]; [0; 0; 0; 1; 2]; [0; 0; 3; 4; 5]; [0; 0; 0; 0; 0] ]%Z.

(** Resizing by nearest neighbour, a stand-in for [cv.resize] that meets
    its contract on sizes. *)
Definition nearest_resize {px} (zero : px) (src : ndarray px)
    (dsize : Z * Z) (ip : interpolation) : outcome (ndarray px) :=
  let dw := Z.to_nat (fst dsize) in
  let dh := Z.to_nat (snd dsize) in
  if (height src =? 0) || (width src =? 0)
     || (fst dsize <=? 0)%Z || (snd dsize <=? 0)%Z
  then Raise (CvError "resize: empty source or empty target size")
  else Ok (NdArray (dtype src) (dh, dw)
             ((fun i =>
                 (fun j => default zero
                             (pixel src (i * height src / dh)
                                        (j * width src / dw)))
                   <$> seq 0 dw)
                <$> seq 0 dh)).

(** The method of albumentations that [SafeRandomScale] overrides, over
    the stand-in: a resize to the truncated extents. *)
Definition nearest_albumentations : Albumentations Z := {|
  RandomScale_apply img scale ip :=
    (get new_height <~ scale_extent (height img) scale;
     get new_width <~ scale_extent (width img) scale;
     nearest_resize 0%Z img (new_width, new_height) ip)%py
|}.

(** Some floats of the source and of the statements. *)
Definition half : float := literal (1 # 2).
Definition tenth : float := literal (1 # 10).
Definition third : float := literal (1 # 3).

#[global] Instance Q_eq_dec : EqDecision Q.
Proof. solve_decision. Defined.

#[global] Instance float_eq_dec : EqDecision float.
Proof. solve_decision. Defined.

(** The float that a value of Stdlib's specification of IEEE 754
    ([SpecFloat]) denotes. *)
Definition of_spec_float (x : spec_float) : float :=
  match x with
  | S754_zero _ => Finite 0
  | S754_infinity s => Infinity s
  | S754_nan => NaN
  | S754_finite s m e =>
      Finite (Qred ((if s then - inject_Z (Z.pos m) else inject_Z (Z.pos m))
                    * pow2 e))
  end.

(** The binary64 value nearest to [n / d], by [SpecFloat]. *)
Definition spec_ratio (n d : Z) : spec_float :=
  SFdiv 53 1024 (binary_normalize 53 1024 n 0 false)
                (binary_normalize 53 1024 d 0 false).

(** Operands on which the arithmetic above is compared with [SpecFloat]:
    the integers up to 40 and some powers of two as a first operand, and
    as a second the decimals of the source and of the statements. *)
Definition reference_operands : list (spec_float * spec_float) :=
  x ← (fun n => spec_ratio n 1)
        <$> ((Z.of_nat <$> seq 0 41) ++ [100; 200; 2 ^ 53; 2 ^ 53 + 1;
                                          2 ^ 1023; - 17]%Z);
  y ← [ spec_ratio 1 2; spec_ratio 1 10; spec_ratio 7 100; spec_ratio 1 3;
        spec_ratio 11 10; spec_ratio 43 32; spec_ratio 3 100;
        spec_ratio 1 (2 ^ 1074); spec_ratio (2 ^ 1023) 1;
        spec_ratio (- 9) 10; S754_infinity false; S754_nan;
        S754_zero false ];
  [(x, y)].

(* ===================================================================== *)
(** ** Facts about slices of lists *)
(* ===================================================================== *)

Section ListFacts.
Context {A : Type}.
Implicit Types old new l : list A.

Lemma length_splice old new s n :
  s + n <= length old -> length new = n ->
  length (splice old (s, n) new) = length old.
Proof.
  intros Hfit Hnew. unfold splice; simpl.
  rewrite !length_app, length_take, length_drop. lia.
Qed.

Lemma lookup_splice old new s n i :
  s + n <= length old -> length new = n ->
  splice old (s, n) new !! i =
    if decide (s <= i < s + n) then new !! (i - s) else old !! i.
Proof.
  intros Hfit Hnew. unfold splice; simpl.
  assert (Hl : length (take s old) = s) by (rewrite length_take; lia).
  destruct (decide (i < s)) as [Hlt | Hge].
  - rewrite lookup_app_l by lia. rewrite lookup_take_lt by lia.
    case_decide; [lia | done].
  - rewrite lookup_app_r by lia. rewrite Hl.
    destruct (decide (i < s + n)) as [Hin | Hout].
    + rewrite lookup_app_l by lia. case_decide; [done | lia].
    + rewrite lookup_app_r by lia. rewrite lookup_drop.
      case_decide; [lia |]. f_equal. lia.
Qed.

Lemma slice_splice old new s n :
  s + n <= length old -> length new = n ->
  slice_list (splice old (s, n) new) (s, n) = new.
Proof.
  intros Hfit Hnew. unfold slice_list, splice; simpl.
  rewrite drop_app_length' by (rewrite length_take; lia).
  by rewrite take_app_length'.
Qed.

Lemma length_slice_list l s n :
  s + n <= length l -> length (slice_list l (s, n)) = n.
Proof.
  intros Hfit. unfold slice_list; simpl. rewrite length_take, length_drop. lia.
Qed.

Lemma lookup_slice_list l s n i :
  i < n -> slice_list l (s, n) !! i = l !! (s + i).
Proof.
  intros Hi. unfold slice_list; simpl.
  rewrite lookup_take_lt by done. apply lookup_drop.
Qed.

Lemma broadcast_list_same l m : length l = m -> broadcast_list l m = l.
Proof.
  intros Hl. unfold broadcast_list.
  by rewrite (proj2 (Nat.eqb_eq _ _) Hl).
Qed.
End ListFacts.

(** The window [start : start + n] of an axis that holds it. *)
Lemma slice_range_fit (len : nat) (s n : Z) :
  (0 <= s)%Z -> (0 <= n)%Z -> (s + n <= Z.of_nat len)%Z ->
  slice_range len s (s + n) = (Z.to_nat s, Z.to_nat n).
Proof.
  intros Hs Hn Hfit. unfold slice_range, slice_index.
  destruct (Z.ltb_spec s 0), (Z.ltb_spec (s + n) 0); try lia.
  f_equal; lia.
Qed.

(** The window [0 : k] for a bound beyond the axis, or on it. *)
Lemma slice_range_prefix (len : nat) (k : Z) :
  (0 <= k)%Z -> slice_range len 0 k = (0, Z.to_nat (Z.min k (Z.of_nat len))).
Proof.
  intros Hk. unfold slice_range, slice_index. simpl.
  destruct (Z.ltb_spec k 0); try lia. f_equal; lia.
Qed.

(* ===================================================================== *)
(** ** Facts about arrays *)
(* ===================================================================== *)

Section ArrayFacts.
Context {px : Type}.
Implicit Types a res src : ndarray px.

Lemma wf_row a i r : wf a -> rows a !! i = Some r -> length r = width a.
Proof.
  intros [_ Hrows] Hi. rewrite Forall_lookup in Hrows. by eapply Hrows.
Qed.

Lemma zeros_ok (zero : px) (h w : Z) dt :
  (0 <= h)%Z -> (0 <= w)%Z ->
  zeros zero h w dt =
    Ok (NdArray dt (Z.to_nat h, Z.to_nat w)
          (replicate (Z.to_nat h) (replicate (Z.to_nat w) zero))).
Proof.
  intros Hh Hw. unfold zeros.
  destruct (Z.ltb_spec h 0), (Z.ltb_spec w 0); simpl; try lia. done.
Qed.

Lemma zeros_inv (zero : px) (h w : Z) dt res :
  zeros zero h w dt = Ok res ->
  (0 <= h)%Z /\ (0 <= w)%Z /\
  res = NdArray dt (Z.to_nat h, Z.to_nat w)
          (replicate (Z.to_nat h) (replicate (Z.to_nat w) zero)).
Proof.
  unfold zeros.
  destruct (Z.ltb_spec h 0), (Z.ltb_spec w 0); simpl; try discriminate.
  intros [= <-]. repeat split; lia.
Qed.

Lemma wf_blank (zero : px) dt (h w : nat) :
  wf (NdArray dt (h, w) (replicate h (replicate w zero))).
Proof.
  split; simpl.
  - apply length_replicate.
  - apply Forall_replicate. apply length_replicate.
Qed.

Lemma pixel_blank (zero : px) dt (h w i j : nat) :
  i < h -> j < w ->
  pixel (NdArray dt (h, w) (replicate h (replicate w zero))) i j = Some zero.
Proof.
  intros Hi Hj. unfold pixel; simpl.
  rewrite lookup_replicate_2 by done. simpl. by apply lookup_replicate_2.
Qed.

Lemma broadcast_rows_same src :
  wf src -> broadcast_rows src (height src) (width src) = rows src.
Proof.
  intros [Hlen Hrows]. unfold broadcast_rows.
  assert (Hid : (fun r => broadcast_list r (width src)) <$> rows src
                = rows src).
  { rewrite <- (list_fmap_id (rows src)) at 2.
    apply Forall_fmap_ext_1. eapply Forall_impl; [exact Hrows |].
    intros r Hr. by apply broadcast_list_same. }
  rewrite Hid. by apply broadcast_list_same.
Qed.

Lemma getitem_wf a r0 r1 c0 c1 : wf a -> wf (getitem a r0 r1 c0 c1).
Proof.
  intros [Hlen Hrows]. unfold getitem, slice_range, wf, height, width in *.
  simpl. split.
  - rewrite length_fmap. unfold slice_list; simpl.
    rewrite length_take, length_drop. unfold slice_index. lia.
  - apply Forall_fmap. unfold slice_list; simpl.
    apply Forall_take, Forall_drop. eapply Forall_impl; [exact Hrows |].
    intros r Hr; simpl. rewrite length_take, length_drop, Hr.
    unfold slice_index. lia.
Qed.

(** A window [a[t:t+h, l:l+w]] that lies within the array. *)
Lemma getitem_fit a (t l h w : Z) :
  (0 <= t)%Z -> (0 <= l)%Z -> (0 <= h)%Z -> (0 <= w)%Z ->
  (t + h <= Z.of_nat (height a))%Z -> (l + w <= Z.of_nat (width a))%Z ->
  getitem a t (t + h) l (l + w) =
    NdArray (dtype a) (Z.to_nat h, Z.to_nat w)
      ((fun r => slice_list r (Z.to_nat l, Z.to_nat w))
         <$> slice_list (rows a) (Z.to_nat t, Z.to_nat h)).
Proof.
  intros. unfold getitem. by rewrite !slice_range_fit by lia.
Qed.

(** The top-left window [a[0:k, 0:m]]: the first rows, each cut to its
    first entries. *)
Lemma getitem_prefix_rows a (k m : Z) :
  (0 <= k)%Z -> (0 <= m)%Z ->
  getitem a 0 k 0 m =
    NdArray (dtype a)
      (Z.to_nat (Z.min k (Z.of_nat (height a))),
       Z.to_nat (Z.min m (Z.of_nat (width a))))
      (take (Z.to_nat (Z.min m (Z.of_nat (width a))))
         <$> take (Z.to_nat (Z.min k (Z.of_nat (height a)))) (rows a)).
Proof.
  intros Hk Hm. unfold getitem.
  rewrite !slice_range_prefix by done. unfold slice_list; simpl.
  by rewrite drop_0.
Qed.

Lemma pixel_getitem_prefix a (k m : Z) i j :
  wf a -> (Z.of_nat i < k)%Z -> (Z.of_nat j < m)%Z ->
  pixel (getitem a 0 k 0 m) i j = pixel a i j.
Proof.
  intros Hwf Hi Hj. rewrite getitem_prefix_rows by lia.
  unfold pixel; simpl. rewrite list_lookup_fmap.
  destruct (rows a !! i) as [r |] eqn:Er.
  - assert (Hlt : i < height a)
      by (destruct Hwf as [<- _]; by eapply lookup_lt_Some).
    rewrite lookup_take_lt by lia. rewrite Er; simpl.
    rewrite lookup_take. case_decide as Hjw; [done |].
    symmetry. apply lookup_ge_None. rewrite (wf_row _ _ _ Hwf Er). lia.
  - rewrite (proj2 (lookup_ge_None _ _)); [done |].
    apply lookup_ge_None in Er. rewrite length_take. lia.
Qed.

(** The whole array, read as a window. *)
Lemma getitem_all a :
  wf a -> getitem a 0 (Z.of_nat (height a)) 0 (Z.of_nat (width a)) = a.
Proof.
  intros [Hlen Hrows]. rewrite getitem_prefix_rows by lia.
  rewrite !Z.min_id, !Nat2Z.id. destruct a as [d [h w] rs]; simpl in *.
  unfold height, width in *; simpl in *. f_equal.
  rewrite take_ge by lia.
  rewrite <- (list_fmap_id rs) at 2.
  apply Forall_fmap_ext_1. eapply Forall_impl; [exact Hrows |].
  intros r Hr; simpl in *. apply take_ge. lia.
Qed.

(** An assignment to a window that lies within the target, from a source
    of the window's shape, returns; nothing is asked of the rows. *)
Lemma setitem_returns res src (t l : Z) :
  (0 <= t)%Z -> (0 <= l)%Z ->
  (t + Z.of_nat (height src) <= Z.of_nat (height res))%Z ->
  (l + Z.of_nat (width src) <= Z.of_nat (width res))%Z ->
  exists out,
    setitem res t (t + Z.of_nat (height src)) l (l + Z.of_nat (width src)) src
      = Ok out /\
    shape out = shape res /\ dtype out = dtype res.
Proof.
  intros Ht Hl Hrow Hcol. unfold setitem.
  rewrite !slice_range_fit by lia. rewrite !Nat2Z.id. simpl.
  unfold broadcastable. rewrite !Nat.eqb_refl. simpl. eauto.
Qed.

(** *** Assignment to a window that lies within the array *)

Section Paste.
Variables (res src : ndarray px) (t l : Z).
Hypothesis Hfits : window_fits res src t l.

Let Hres : wf res := proj1 Hfits.
Let Hsrc : wf src := proj1 (proj2 Hfits).
Let Ht : (0 <= t)%Z := proj1 (proj2 (proj2 Hfits)).
Let Hl : (0 <= l)%Z := proj1 (proj2 (proj2 (proj2 Hfits))).
Let Hrow : (t + Z.of_nat (height src) <= Z.of_nat (height res))%Z :=
  proj1 (proj2 (proj2 (proj2 (proj2 Hfits)))).
Let Hcol : (l + Z.of_nat (width src) <= Z.of_nat (width res))%Z :=
  proj2 (proj2 (proj2 (proj2 (proj2 Hfits)))).

Let b : Z := (t + Z.of_nat (height src))%Z.
Let r : Z := (l + Z.of_nat (width src))%Z.

(** The rows written by the assignment. *)
Let new_rows : list (list px) :=
  zip_with (fun o n => splice o (Z.to_nat l, width src) n)
    (slice_list (rows res) (Z.to_nat t, height src)) (rows src).

Lemma setitem_fit :
  setitem res t b l r src =
    Ok (NdArray (dtype res) (shape res)
          (splice (rows res) (Z.to_nat t, height src) new_rows)).
Proof.
  unfold setitem, b, r.
  rewrite !slice_range_fit by lia. rewrite !Nat2Z.id. simpl.
  unfold broadcastable. rewrite !Nat.eqb_refl. simpl.
  by rewrite broadcast_rows_same.
Qed.

Lemma length_new_rows : length new_rows = height src.
Proof.
  unfold new_rows. destruct Hres as [Hlen _], Hsrc as [Hlen' _].
  rewrite length_zip_with, length_slice_list by lia. lia.
Qed.

Lemma lookup_new_rows i :
  i < height src ->
  exists o n, rows res !! (Z.to_nat t + i) = Some o /\
              rows src !! i = Some n /\
              new_rows !! i = Some (splice o (Z.to_nat l, width src) n).
Proof.
  intros Hi. destruct Hres as [Hlen _], Hsrc as [Hlen' _].
  destruct (lookup_lt_is_Some_2 (rows res) (Z.to_nat t + i)) as [o Ho];
    [lia |].
  destruct (lookup_lt_is_Some_2 (rows src) i) as [n Hn]; [lia |].
  exists o, n. repeat split; try done.
  unfold new_rows. rewrite lookup_zip_with.
  rewrite lookup_slice_list by done. by rewrite Ho, Hn.
Qed.

Lemma setitem_wf res' : setitem res t b l r src = Ok res' -> wf res'.
Proof.
  rewrite setitem_fit. intros [= <-].
  destruct Hres as [Hlen Hrows]. split; simpl.
  - rewrite length_splice; [done | lia | apply length_new_rows].
  - apply Forall_lookup. intros i x Hx.
    rewrite lookup_splice in Hx by (lia || apply length_new_rows).
    case_decide as Hin.
    + destruct (lookup_new_rows (i - Z.to_nat t)) as (o & n & Ho & Hn & Hnew);
        [lia |].
      rewrite Hnew in Hx. injection Hx as <-.
      rewrite length_splice.
      * by apply (wf_row res (Z.to_nat t + (i - Z.to_nat t))).
      * rewrite (wf_row res _ _ Hres Ho). lia.
      * by apply (wf_row src (i - Z.to_nat t)).
    + by apply (wf_row res i).
Qed.

(** The assignment keeps the shape and the dtype of the target. *)
Lemma setitem_shape res' :
  setitem res t b l r src = Ok res' ->
  shape res' = shape res /\ dtype res' = dtype res.
Proof. rewrite setitem_fit. by intros [= <-]. Qed.

(** Inside the window the result holds [src]; elsewhere it holds what
    [res] held. *)
Lemma setitem_pixel res' i j :
  setitem res t b l r src = Ok res' ->
  pixel res' i j =
    if decide ((Z.to_nat t <= i < Z.to_nat t + height src) /\
               (Z.to_nat l <= j < Z.to_nat l + width src))
    then pixel src (i - Z.to_nat t) (j - Z.to_nat l)
    else pixel res i j.
Proof.
  rewrite setitem_fit. intros [= <-]. unfold pixel; simpl.
  destruct Hres as [Hlen Hrows].
  rewrite lookup_splice by (lia || apply length_new_rows).
  destruct (decide (Z.to_nat t <= i < Z.to_nat t + height src))
    as [Hin | Hout].
  - destruct (lookup_new_rows (i - Z.to_nat t)) as (o & n & Ho & Hn & Hnew);
      [lia |].
    replace (Z.to_nat t + (i - Z.to_nat t)) with i in Ho by lia.
    rewrite Hnew, Hn, Ho. simpl.
    rewrite lookup_splice.
    + repeat case_decide; try done; tauto.
    + rewrite (wf_row res _ _ Hres Ho). lia.
    + by apply (wf_row src (i - Z.to_nat t)).
  - case_decide; [tauto | done].
Qed.

(** Reading the window back gives [src]. *)
Lemma getitem_setitem res' :
  setitem res t b l r src = Ok res' ->
  getitem res' t b l r = NdArray (dtype res) (shape src) (rows src).
Proof.
  rewrite setitem_fit. intros [= <-]. unfold b, r.
  rewrite getitem_fit by (unfold height, width in *; simpl; lia).
  rewrite !Nat2Z.id. simpl.
  f_equal; [unfold height, width; by destruct (shape src) |].
  destruct Hres as [Hlen Hrows].
  rewrite slice_splice by (lia || apply length_new_rows).
  apply list_eq; intros i. rewrite list_lookup_fmap.
  destruct (decide (i < height src)) as [Hi | Hi].
  - destruct (lookup_new_rows i) as (o & n & Ho & Hn & Hnew); [done |].
    rewrite Hnew, Hn. simpl. f_equal. apply slice_splice.
    + rewrite (wf_row res _ _ Hres Ho). lia.
    + by apply (wf_row src i).
  - rewrite !(proj2 (lookup_ge_None _ _)); [done | |].
    + destruct Hsrc. lia.
    + rewrite length_new_rows. lia.
Qed.
End Paste.
End ArrayFacts.

(* ===================================================================== *)
(** ** Facts about the random source *)
(* ===================================================================== *)

Lemma randint_run (n : Z) (w : world) :
  (0 <= n)%Z -> randint 0 n w = (Ok (offset w 0 n), drawn 1 w).
Proof.
  intros Hn. unfold randint. destruct (Z.ltb_spec n 0); [lia | done].
Qed.

Lemma offset_range (w : world) (k : nat) (n : Z) :
  (0 <= n)%Z -> (0 <= offset w k n <= n)%Z.
Proof.
  intros Hn. unfold offset.
  pose proof (Z.mod_pos_bound (entropy w (k + cursor w)) (n - 0 + 1)). lia.
Qed.

(* ===================================================================== *)
(** ** [randomly_displace_and_pad] *)
(* ===================================================================== *)

Section Displace.
Context {px : Type} (zero : px).
Implicit Types img res : ndarray px.
Local Open Scope Z_scope.

(** *** The three paths through lines 29-41 *)

Lemma displace_fits img frame_h frame_w crop w :
  Z.of_nat (height img) <= frame_h -> Z.of_nat (width img) <= frame_w ->
  randomly_displace_and_pad zero img (frame_h, frame_w) crop w =
    place zero img (Z.of_nat (height img)) (Z.of_nat (width img))
      frame_h frame_w w.
Proof.
  intros Hh Hw. unfold randomly_displace_and_pad, fit_to_frame, bind; simpl.
  destruct (Z.ltb_spec frame_h (Z.of_nat (height img))); [lia |].
  destruct (Z.ltb_spec frame_w (Z.of_nat (width img))); [lia |].
  reflexivity.
Qed.

Lemma displace_crops img frame_h frame_w w :
  frame_h < Z.of_nat (height img) \/ frame_w < Z.of_nat (width img) ->
  randomly_displace_and_pad zero img (frame_h, frame_w) true w =
    place zero (cropped img frame_h frame_w)
      (Z.min (Z.of_nat (height img)) frame_h)
      (Z.min (Z.of_nat (width img)) frame_w)
      frame_h frame_w (printed crop_warning w).
Proof.
  intros Hsmall. unfold randomly_displace_and_pad, fit_to_frame, bind; simpl.
  destruct (Z.ltb_spec frame_h (Z.of_nat (height img))),
           (Z.ltb_spec frame_w (Z.of_nat (width img)));
    simpl; try reflexivity; lia.
Qed.

Lemma displace_raises img frame_h frame_w w :
  frame_h < Z.of_nat (height img) \/ frame_w < Z.of_nat (width img) ->
  randomly_displace_and_pad zero img (frame_h, frame_w) false w =
    (Raise (frame_error frame_h frame_w
              (Z.of_nat (height img)) (Z.of_nat (width img))), w).
Proof.
  intros Hsmall. unfold randomly_displace_and_pad, fit_to_frame, bind; simpl.
  destruct (Z.ltb_spec frame_h (Z.of_nat (height img))),
           (Z.ltb_spec frame_w (Z.of_nat (width img)));
    simpl; try reflexivity; lia.
Qed.

(** *** Lines 43-51 *)

(** On an image that fits, [place] allocates, draws twice and copies. *)
Lemma place_run img img_h img_w frame_h frame_w w :
  0 <= frame_h -> 0 <= frame_w -> img_h <= frame_h -> img_w <= frame_w ->
  place zero img img_h img_w frame_h frame_w w =
    (setitem (canvas zero frame_h frame_w (dtype img))
       (offset w 0 (frame_h - img_h))
       (offset w 0 (frame_h - img_h) + img_h)
       (offset w 1 (frame_w - img_w))
       (offset w 1 (frame_w - img_w) + img_w) img,
     drawn 2 w).
Proof.
  intros Hfh Hfw Hh Hw. unfold place, bind, lift.
  rewrite zeros_ok by done. rewrite randint_run by lia.
  rewrite randint_run by lia. reflexivity.
Qed.

(** [place] raises nothing but [ValueError]. *)
Lemma place_raises img img_h img_w frame_h frame_w w e w' :
  place zero img img_h img_w frame_h frame_w w = (Raise e, w') ->
  exists msg, e = ValueError msg.
Proof.
  unfold place, bind, lift, zeros, randint, setitem.
  repeat match goal with
         | |- context [if ?c then _ else _] => destruct c; simpl
         end;
    intros [= <- _]; eauto.
Qed.

(** *** Placement of an image that fits *)

(** What [place] returns on a well-formed image that fits the frame. *)
Lemma place_spec img frame_h frame_w w :
  wf img ->
  Z.of_nat (height img) <= frame_h -> Z.of_nat (width img) <= frame_w ->
  exists res pad_top pad_left,
    place zero img (Z.of_nat (height img)) (Z.of_nat (width img))
      frame_h frame_w w = (Ok res, drawn 2 w) /\
    pad_top = offset w 0 (frame_h - Z.of_nat (height img)) /\
    pad_left = offset w 1 (frame_w - Z.of_nat (width img)) /\
    (Z.of_nat (height res) = frame_h /\ Z.of_nat (width res) = frame_w) /\
    dtype res = dtype img /\
    wf res /\
    0 <= pad_top <= frame_h - Z.of_nat (height img) /\
    0 <= pad_left <= frame_w - Z.of_nat (width img) /\
    getitem res pad_top (pad_top + Z.of_nat (height img))
                pad_left (pad_left + Z.of_nat (width img)) = img /\
    (forall i j : nat,
        Z.of_nat i < frame_h -> Z.of_nat j < frame_w ->
        ~ (pad_top <= Z.of_nat i < pad_top + Z.of_nat (height img) /\
           pad_left <= Z.of_nat j < pad_left + Z.of_nat (width img)) ->
        pixel res i j = Some zero).
Proof.
  intros Hwf Hh Hw.
  set (pt := offset w 0 (frame_h - Z.of_nat (height img))).
  set (pl := offset w 1 (frame_w - Z.of_nat (width img))).
  assert (Hpt : 0 <= pt <= frame_h - Z.of_nat (height img))
    by (apply offset_range; lia).
  assert (Hpl : 0 <= pl <= frame_w - Z.of_nat (width img))
    by (apply offset_range; lia).
  assert (Hfits : window_fits (canvas zero frame_h frame_w (dtype img)) img pt pl).
  { split; [apply wf_blank |]. split; [exact Hwf |].
    change (height (canvas zero frame_h frame_w (dtype img)))
      with (Z.to_nat frame_h).
    change (width (canvas zero frame_h frame_w (dtype img)))
      with (Z.to_nat frame_w).
    lia. }
  destruct (setitem (canvas zero frame_h frame_w (dtype img))
              pt (pt + Z.of_nat (height img))
              pl (pl + Z.of_nat (width img)) img) as [res | e] eqn:Eset;
    [| by rewrite setitem_fit in Eset].
  exists res, pt, pl.
  destruct (setitem_shape _ _ _ _ Hfits _ Eset) as [Hshape Hdtype].
  split; [| split; [| split; [| split; [| split; [| split;
    [| split; [| split; [| split]]]]]]]]; try done.
  - rewrite place_run by lia. by rewrite <- Eset.
  - unfold height, width. rewrite Hshape. simpl. lia.
  - by eapply setitem_wf.
  - rewrite (getitem_setitem _ _ _ _ Hfits _ Eset). by destruct img.
  - intros i j Hi Hj Hout.
    rewrite (setitem_pixel _ _ _ _ Hfits _ i j Eset).
    case_decide as Hin; [exfalso; apply Hout; lia |].
    apply pixel_blank; lia.
Qed.

(** C1. An image no larger than the frame is returned inside a canvas of
    exactly the frame's size and of the image's dtype: for some offsets
    [pad_top] in [0 .. frame_h - img_h] and [pad_left] in
    [0 .. frame_w - img_w], the window of the result at these offsets is
    the image, and every pixel outside the window is zero. *)
Theorem displace_places_image img frame_h frame_w crop w :
  wf img ->
  Z.of_nat (height img) <= frame_h -> Z.of_nat (width img) <= frame_w ->
  exists res w' pad_top pad_left,
    randomly_displace_and_pad zero img (frame_h, frame_w) crop w
      = (Ok res, w') /\
    (Z.of_nat (height res) = frame_h /\ Z.of_nat (width res) = frame_w) /\
    dtype res = dtype img /\
    wf res /\
    0 <= pad_top <= frame_h - Z.of_nat (height img) /\
    0 <= pad_left <= frame_w - Z.of_nat (width img) /\
    getitem res pad_top (pad_top + Z.of_nat (height img))
                pad_left (pad_left + Z.of_nat (width img)) = img /\
    (forall i j : nat,
        Z.of_nat i < frame_h -> Z.of_nat j < frame_w ->
        ~ (pad_top <= Z.of_nat i < pad_top + Z.of_nat (height img) /\
           pad_left <= Z.of_nat j < pad_left + Z.of_nat (width img)) ->
        pixel res i j = Some zero).
Proof.
  intros Hwf Hh Hw.
  destruct (place_spec img frame_h frame_w w Hwf Hh Hw)
    as (res & pt & pl & Hrun & _ & _ & Hrest).
  exists res, (drawn 2 w), pt, pl. split; [| exact Hrest].
  by rewrite displace_fits.
Qed.

(** *** The size check *)

(** C2. The call raises the size-mismatch [AssertionError] exactly when
    cropping is disabled and the frame is smaller than the image in some
    dimension; the caller then receives the exception, with the world as
    it was at the call. *)
Theorem displace_raises_iff img frame_h frame_w crop w :
  ((exists msg w',
       randomly_displace_and_pad zero img (frame_h, frame_w) crop w
         = (Raise (AssertionError msg), w'))
   <->
   (crop = false /\
    (frame_h < Z.of_nat (height img) \/ frame_w < Z.of_nat (width img)))) /\
  (crop = false /\
   (frame_h < Z.of_nat (height img) \/ frame_w < Z.of_nat (width img)) ->
   randomly_displace_and_pad zero img (frame_h, frame_w) crop w
     = (Raise (frame_error frame_h frame_w
                 (Z.of_nat (height img)) (Z.of_nat (width img))), w)).
Proof.
  assert (Hraise : crop = false /\
                   (frame_h < Z.of_nat (height img)
                    \/ frame_w < Z.of_nat (width img)) ->
                   randomly_displace_and_pad zero img (frame_h, frame_w)
                     crop w
                   = (Raise (frame_error frame_h frame_w
                               (Z.of_nat (height img))
                               (Z.of_nat (width img))), w)).
  { intros [-> Hsmall]. by apply displace_raises. }
  split; [| exact Hraise]. split.
  - intros (msg & w' & Hrun).
    destruct (decide (frame_h < Z.of_nat (height img)
                      \/ frame_w < Z.of_nat (width img))) as [Hsmall | Hfit].
    + destruct crop; [| done].
      rewrite displace_crops in Hrun by done.
      apply place_raises in Hrun as [? [=]].
    + rewrite displace_fits in Hrun by lia.
      apply place_raises in Hrun as [? [=]].
  - intros Hcond. rewrite (Hraise Hcond). unfold frame_error. eauto.
Qed.

(** *** Cropping *)

Lemma cropped_shape img frame_h frame_w :
  0 <= frame_h -> 0 <= frame_w ->
  shape (cropped img frame_h frame_w) =
    (Z.to_nat (Z.min (Z.of_nat (height img)) frame_h),
     Z.to_nat (Z.min (Z.of_nat (width img)) frame_w)).
Proof.
  intros Hh Hw. unfold cropped. rewrite getitem_prefix_rows by lia.
  by rewrite !(Z.min_l (Z.min _ _) (Z.of_nat _)) by lia.
Qed.

Lemma cropped_rows img frame_h frame_w :
  0 <= frame_h -> 0 <= frame_w ->
  rows (cropped img frame_h frame_w) =
    take (Z.to_nat (Z.min (Z.of_nat (width img)) frame_w))
      <$> take (Z.to_nat (Z.min (Z.of_nat (height img)) frame_h)) (rows img).
Proof.
  intros Hh Hw. unfold cropped. rewrite getitem_prefix_rows by lia.
  by rewrite !(Z.min_l (Z.min _ _) (Z.of_nat _)) by lia.
Qed.

Lemma cropped_wf img frame_h frame_w :
  wf img -> wf (cropped img frame_h frame_w).
Proof. apply getitem_wf. Qed.

Lemma cropped_extents img frame_h frame_w :
  0 <= frame_h -> 0 <= frame_w ->
  Z.of_nat (height (cropped img frame_h frame_w))
    = Z.min (Z.of_nat (height img)) frame_h /\
  Z.of_nat (width (cropped img frame_h frame_w))
    = Z.min (Z.of_nat (width img)) frame_w.
Proof.
  intros Hh Hw. unfold height at 1, width at 1.
  rewrite cropped_shape by done. simpl. lia.
Qed.

(** C3. With cropping enabled and a frame (of non-negative extents) that
    is smaller than the image in some dimension, the image is cut to
    [(min img_h frame_h, min img_w frame_w)] by keeping its first rows
    and the first entries of each, the warning is printed, and the
    function goes on with the cut image and its extents, placing it as
    it places an image that fits. When neither extent of the frame
    exceeds the image's, both offsets are 0 and the result is the
    top-left window itself; so it is for a (10, 10) image and the frame
    (5, 5). *)
Theorem displace_crops_top_left img frame_h frame_w w :
  wf img -> 0 <= frame_h -> 0 <= frame_w ->
  frame_h < Z.of_nat (height img) \/ frame_w < Z.of_nat (width img) ->
  let img_h := Z.min (Z.of_nat (height img)) frame_h in
  let img_w := Z.min (Z.of_nat (width img)) frame_w in
  let img' := cropped img frame_h frame_w in
  (Z.of_nat (height img') = img_h /\ Z.of_nat (width img') = img_w) /\
  rows img' = take (Z.to_nat img_w) <$> take (Z.to_nat img_h) (rows img) /\
  (forall i j : nat, Z.of_nat i < img_h -> Z.of_nat j < img_w ->
                     pixel img' i j = pixel img i j) /\
  randomly_displace_and_pad zero img (frame_h, frame_w) true w
    = place zero img' img_h img_w frame_h frame_w (printed crop_warning w) /\
  (exists res pad_top pad_left,
      randomly_displace_and_pad zero img (frame_h, frame_w) true w
        = (Ok res, drawn 2 (printed crop_warning w)) /\
      pad_top = offset (printed crop_warning w) 0 (frame_h - img_h) /\
      pad_left = offset (printed crop_warning w) 1 (frame_w - img_w) /\
      (Z.of_nat (height res) = frame_h /\ Z.of_nat (width res) = frame_w) /\
      0 <= pad_top <= frame_h - img_h /\
      0 <= pad_left <= frame_w - img_w /\
      getitem res pad_top (pad_top + img_h) pad_left (pad_left + img_w)
        = img' /\
      (frame_h <= Z.of_nat (height img) ->
       frame_w <= Z.of_nat (width img) ->
       pad_top = 0 /\ pad_left = 0 /\ res = img')) /\
  (shape img = (10%nat, 10%nat) -> (frame_h, frame_w) = (5, 5) ->
   fst (randomly_displace_and_pad zero img (frame_h, frame_w) true w)
     = Ok (NdArray (dtype img) (5%nat, 5%nat)
             (take 5 <$> take 5 (rows img)))).
Proof.
  intros Hwf Hfh Hfw Hsmall img_h img_w img'.
  destruct (cropped_extents img frame_h frame_w Hfh Hfw) as [Eh Ew].
  fold img' img_h in Eh. fold img' img_w in Ew.
  assert (Hwf' : wf img') by by apply cropped_wf.
  assert (Hrun : randomly_displace_and_pad zero img (frame_h, frame_w) true w
                 = place zero img' img_h img_w frame_h frame_w
                     (printed crop_warning w))
    by by apply displace_crops.
  assert (Hrows : rows img' = take (Z.to_nat img_w)
                                <$> take (Z.to_nat img_h) (rows img))
    by by apply cropped_rows.
  assert (Hpix : forall i j : nat,
             Z.of_nat i < img_h -> Z.of_nat j < img_w ->
             pixel img' i j = pixel img i j)
    by (intros i j Hi Hj; by apply pixel_getitem_prefix).
  assert (Hdt : dtype img' = dtype img) by done.
  assert (Hle : img_h <= frame_h /\ img_w <= frame_w) by lia.
  assert (Hmin : (frame_h <= Z.of_nat (height img) -> img_h = frame_h) /\
                 (frame_w <= Z.of_nat (width img) -> img_w = frame_w))
    by lia.
  clearbody img' img_h img_w. subst img_h img_w.
  destruct (place_spec img' frame_h frame_w (printed crop_warning w) Hwf')
    as (res & pt & pl & Hplace & Ept & Epl & Hsize & _ & Hwfres & Hpt & Hpl
        & Hget & _); [lia | lia |].
  assert (Hexact : frame_h <= Z.of_nat (height img) ->
                   frame_w <= Z.of_nat (width img) ->
                   pt = 0 /\ pl = 0 /\ res = img').
  { intros Hh Hw. assert (pt = 0) as -> by lia. assert (pl = 0) as -> by lia.
    split; [done |]. split; [done |].
    transitivity (getitem res 0 (Z.of_nat (height res))
                            0 (Z.of_nat (width res))).
    - symmetry. by apply getitem_all.
    - rewrite <- Hget. f_equal; lia. }
  split; [done |]. split; [done |]. split; [done |]. split; [done |]. split.
  - exists res, pt, pl. by rewrite Hrun.
  - intros Hshape [= -> ->]. rewrite Hrun, Hplace. simpl.
    assert (Hten : height img = 10%nat /\ width img = 10%nat)
      by (unfold height, width; by rewrite Hshape).
    destruct Hexact as (_ & _ & ->); [lia | lia |].
    destruct Hsize as [Hh5 Hw5]. rewrite Hh5, Hw5 in Hrows.
    destruct img' as [d' [h' w'] rs']; unfold height, width in Hh5, Hw5;
      simpl in *.
    subst d' rs'. f_equal. f_equal. f_equal; lia.
Qed.

(** *** The write stays within the canvas *)

Lemma place_returns_inv img img_h img_w frame_h frame_w w res w' :
  place zero img img_h img_w frame_h frame_w w = (Ok res, w') ->
  0 <= frame_h /\ 0 <= frame_w.
Proof.
  unfold place, bind, lift.
  destruct (zeros zero frame_h frame_w (dtype img)) as [c | e] eqn:Ez;
    [| discriminate].
  intros _. apply zeros_inv in Ez. lia.
Qed.

(** Whenever the call returns, the sizes with which lines 43-51 run are
    those of the image they copy and do not exceed the frame. *)
Lemma fit_to_frame_returns img frame_h frame_w crop w res w' :
  randomly_displace_and_pad zero img (frame_h, frame_w) crop w
    = (Ok res, w') ->
  exists img' w1,
    fit_to_frame img frame_h frame_w crop w
      = (Ok (img', Z.of_nat (height img'), Z.of_nat (width img')), w1) /\
    place zero img' (Z.of_nat (height img')) (Z.of_nat (width img'))
      frame_h frame_w w1 = (Ok res, w') /\
    0 <= frame_h /\ 0 <= frame_w /\
    Z.of_nat (height img') <= frame_h /\ Z.of_nat (width img') <= frame_w.
Proof.
  intros Hrun.
  destruct (decide (frame_h < Z.of_nat (height img)
                    \/ frame_w < Z.of_nat (width img))) as [Hsmall | Hfit].
  - destruct crop; [| by rewrite displace_raises in Hrun].
    rewrite displace_crops in Hrun by done.
    destruct (place_returns_inv _ _ _ _ _ _ _ _ Hrun) as [Hfh Hfw].
    destruct (cropped_extents img frame_h frame_w Hfh Hfw) as [Eh Ew].
    exists (cropped img frame_h frame_w), (printed crop_warning w).
    rewrite Eh, Ew. repeat split; try done; try lia.
    unfold fit_to_frame, bind; simpl.
    destruct (Z.ltb_spec frame_h (Z.of_nat (height img))),
             (Z.ltb_spec frame_w (Z.of_nat (width img)));
      simpl; try reflexivity; lia.
  - rewrite displace_fits in Hrun by lia.
    destruct (place_returns_inv _ _ _ _ _ _ _ _ Hrun) as [Hfh Hfw].
    exists img, w. repeat split; try done; try lia.
    unfold fit_to_frame.
    destruct (Z.ltb_spec frame_h (Z.of_nat (height img))); [lia |].
    destruct (Z.ltb_spec frame_w (Z.of_nat (width img))); [lia |].
    reflexivity.
Qed.

(** C10. On every image and frame for which the call returns: after
    lines 29-41 the extents [img_h], [img_w] are those of the image to
    copy and do not exceed the frame; for all offsets of the two ranges
    the window [pad_top : pad_top + img_h, pad_left : pad_left + img_w]
    ends within the canvas, is not clipped, and the assignment to it
    returns a canvas of the frame's shape; the result of the call is
    such an assignment, of the frame's shape. *)
Theorem displace_write_in_bounds img frame_h frame_w crop w res w' :
  randomly_displace_and_pad zero img (frame_h, frame_w) crop w
    = (Ok res, w') ->
  exists img' img_h img_w w1,
    fit_to_frame img frame_h frame_w crop w = (Ok (img', img_h, img_w), w1) /\
    (img_h = Z.of_nat (height img') /\ img_w = Z.of_nat (width img')) /\
    (img_h <= frame_h /\ img_w <= frame_w) /\
    (forall pad_top pad_left,
        0 <= pad_top <= frame_h - img_h ->
        0 <= pad_left <= frame_w - img_w ->
        (pad_top + img_h <= frame_h /\ pad_left + img_w <= frame_w) /\
        slice_range (Z.to_nat frame_h) pad_top (pad_top + img_h)
          = (Z.to_nat pad_top, Z.to_nat img_h) /\
        slice_range (Z.to_nat frame_w) pad_left (pad_left + img_w)
          = (Z.to_nat pad_left, Z.to_nat img_w) /\
        exists out,
          setitem (canvas zero frame_h frame_w (dtype img'))
            pad_top (pad_top + img_h) pad_left (pad_left + img_w) img'
            = Ok out /\
          shape out = (Z.to_nat frame_h, Z.to_nat frame_w)) /\
    (exists pad_top pad_left,
        randint 0 (frame_h - img_h) w1 = (Ok pad_top, drawn 1 w1) /\
        randint 0 (frame_w - img_w) (drawn 1 w1)
          = (Ok pad_left, drawn 2 w1) /\
        0 <= pad_top <= frame_h - img_h /\
        0 <= pad_left <= frame_w - img_w /\
        setitem (canvas zero frame_h frame_w (dtype img'))
          pad_top (pad_top + img_h) pad_left (pad_left + img_w) img'
          = Ok res) /\
    (Z.of_nat (height res) = frame_h /\ Z.of_nat (width res) = frame_w).
Proof.
  intros Hrun.
  destruct (fit_to_frame_returns _ _ _ _ _ _ _ Hrun)
    as (img' & w1 & Hfit & Hplace & Hfh & Hfw & Hh & Hw).
  exists img', (Z.of_nat (height img')), (Z.of_nat (width img')), w1.
  assert (Hwin : forall pad_top pad_left,
             0 <= pad_top <= frame_h - Z.of_nat (height img') ->
             0 <= pad_left <= frame_w - Z.of_nat (width img') ->
             exists out,
               setitem (canvas zero frame_h frame_w (dtype img'))
                 pad_top (pad_top + Z.of_nat (height img'))
                 pad_left (pad_left + Z.of_nat (width img')) img' = Ok out /\
               shape out = (Z.to_nat frame_h, Z.to_nat frame_w)).
  { intros pt pl Hpt Hpl.
    destruct (setitem_returns (canvas zero frame_h frame_w (dtype img')) img' pt pl)
      as (out & Hout & Hshape & _); try lia.
    - change (height (canvas zero frame_h frame_w (dtype img')))
        with (Z.to_nat frame_h). lia.
    - change (width (canvas zero frame_h frame_w (dtype img')))
        with (Z.to_nat frame_w). lia.
    - by exists out. }
  rewrite place_run in Hplace by lia. injection Hplace as Hset _.
  pose proof (offset_range w1 0 (frame_h - Z.of_nat (height img'))
                ltac:(lia)) as Hpt.
  pose proof (offset_range w1 1 (frame_w - Z.of_nat (width img'))
                ltac:(lia)) as Hpl.
  split; [done |]. split; [done |]. split; [done |]. split; [| split].
  - intros pt pl Hpt' Hpl'. split; [lia |].
    split; [apply slice_range_fit; lia |].
    split; [apply slice_range_fit; lia |]. by apply Hwin.
  - exists (offset w1 0 (frame_h - Z.of_nat (height img'))),
           (offset w1 1 (frame_w - Z.of_nat (width img'))).
    split; [by apply randint_run; lia |].
    split; [| done].
    rewrite (randint_run _ (drawn 1 w1)) by lia. done.
  - destruct (Hwin _ _ Hpt Hpl) as (out & Hout & Hshape).
    rewrite Hset in Hout. injection Hout as ->.
    unfold height, width. rewrite Hshape. simpl. lia.
Qed.

(** X1. The call returns exactly on a frame of non-negative extents that
    holds the image or may crop it. *)
Lemma displace_returns_iff img frame_h frame_w crop w :
  (exists res w',
      randomly_displace_and_pad zero img (frame_h, frame_w) crop w
        = (Ok res, w'))
  <->
  (0 <= frame_h /\ 0 <= frame_w /\
   (crop = true \/
    (Z.of_nat (height img) <= frame_h /\ Z.of_nat (width img) <= frame_w))).
Proof.
  split.
  - intros (res & w' & Hrun).
    destruct (fit_to_frame_returns _ _ _ _ _ _ _ Hrun)
      as (img' & w1 & Hfit & _ & Hfh & Hfw & _).
    split; [done |]. split; [done |].
    destruct crop; [by left | right].
    destruct (decide (frame_h < Z.of_nat (height img)
                      \/ frame_w < Z.of_nat (width img))) as [Hsmall | ?];
      [| lia].
    by rewrite displace_raises in Hrun.
  - intros (Hfh & Hfw & Hok).
    assert (Hplace : forall img' w1,
               Z.of_nat (height img') <= frame_h ->
               Z.of_nat (width img') <= frame_w ->
               exists res w',
                 place zero img' (Z.of_nat (height img'))
                   (Z.of_nat (width img')) frame_h frame_w w1 = (Ok res, w')).
    { intros img' w1 Hh Hw. rewrite place_run by lia.
      pose proof (offset_range w1 0 (frame_h - Z.of_nat (height img'))
                    ltac:(lia)).
      pose proof (offset_range w1 1 (frame_w - Z.of_nat (width img'))
                    ltac:(lia)).
      destruct (setitem_returns (canvas zero frame_h frame_w (dtype img')) img'
                  (offset w1 0 (frame_h - Z.of_nat (height img')))
                  (offset w1 1 (frame_w - Z.of_nat (width img'))))
        as (out & Hout & _); try lia.
      - change (height (canvas zero frame_h frame_w (dtype img')))
          with (Z.to_nat frame_h). lia.
      - change (width (canvas zero frame_h frame_w (dtype img')))
          with (Z.to_nat frame_w). lia.
      - rewrite Hout. eauto. }
    destruct (decide (frame_h < Z.of_nat (height img)
                      \/ frame_w < Z.of_nat (width img))) as [Hsmall | Hfit].
    + destruct Hok as [-> | ?]; [| lia].
      rewrite displace_crops by done.
      destruct (cropped_extents img frame_h frame_w Hfh Hfw) as [Eh Ew].
      rewrite <- Eh, <- Ew. apply Hplace; lia.
    + rewrite displace_fits by lia. apply Hplace; lia.
Qed.

End Displace.

(* ===================================================================== *)
(** ** Rounding to binary64 *)
(* ===================================================================== *)

Section Binary64Facts.
Local Open Scope Q_scope.

Lemma pow2_pos e : 0 < pow2 e.
Proof. apply Qpower_0_lt. reflexivity. Qed.

Lemma pow2_add a b : pow2 (a + b) == pow2 a * pow2 b.
Proof. apply Qpower_plus. intros H. discriminate H. Qed.

Lemma pow2_le a b : (a <= b)%Z -> pow2 a <= pow2 b.
Proof. intros H. apply Qpower_le_compat_l; [exact H | discriminate]. Qed.

Lemma pow2_lt a b : (a < b)%Z -> pow2 a < pow2 b.
Proof. intros H. apply Qpower_lt_compat_l; [exact H | reflexivity]. Qed.

Lemma pow2_lt_inv a b : pow2 a < pow2 b -> (a < b)%Z.
Proof. intros H. apply (Qpower_lt_compat_l_inv 2); [exact H | reflexivity]. Qed.

Lemma pow2_Z e : (0 <= e)%Z -> pow2 e == inject_Z (2 ^ e).
Proof. intros H. unfold pow2. by rewrite Zpower_Qpower. Qed.

Lemma pow2_split a b : pow2 a == pow2 (a - b) * pow2 b.
Proof. rewrite <- pow2_add. by replace (a - b + b)%Z with a by lia. Qed.

(** [ilog2 a] is the exponent of the binade of [a]. *)
Lemma ilog2_spec a : 0 < a -> pow2 (ilog2 a) <= a < pow2 (ilog2 a + 1).
Proof.
  intros Ha. destruct a as [p q].
  assert (Hp : (0 < p)%Z).
  { unfold Qlt in Ha. simpl in Ha. lia. }
  unfold ilog2. simpl Qnum. simpl Qden.
  set (lp := Z.log2 p). set (lq := Z.log2 (Z.pos q)).
  set (k := (lp - lq)%Z).
  pose proof (Z.log2_nonneg p) as Hlp0. fold lp in Hlp0.
  pose proof (Z.log2_nonneg (Z.pos q)) as Hlq0. fold lq in Hlq0.
  destruct (Z.log2_spec p Hp) as [Hp1 Hp2]. fold lp in Hp1, Hp2.
  destruct (Z.log2_spec (Z.pos q) ltac:(lia)) as [Hq1 Hq2].
  fold lq in Hq1, Hq2.
  rewrite Zle_Qle, <- pow2_Z in Hp1, Hq1 by lia.
  rewrite Zlt_Qlt, <- pow2_Z in Hp2, Hq2 by lia.
  replace (Z.succ lp) with (lp + 1)%Z in Hp2 by lia.
  replace (Z.succ lq) with (lq + 1)%Z in Hq2 by lia.
  assert (Ea : (p # q) * inject_Z (Z.pos q) == inject_Z p).
  { rewrite (Qmake_Qdiv p q). field. discriminate. }
  assert (Hq0 : 0 < inject_Z (Z.pos q)) by reflexivity.
  pose proof (pow2_pos lq) as Hlq. pose proof (pow2_pos (k + 1)) as Hk1.
  pose proof (pow2_pos (k - 1)) as Hk2. pose proof (pow2_pos k) as Hk.
  assert (E1 : pow2 (lp + 1) == pow2 (k + 1) * pow2 lq).
  { rewrite <- pow2_add. unfold k. by replace (lp - lq + 1 + lq)%Z
      with (lp + 1)%Z by lia. }
  assert (E2 : pow2 lp == pow2 (k - 1) * pow2 (lq + 1)).
  { rewrite <- pow2_add. unfold k. by replace (lp - lq - 1 + (lq + 1))%Z
      with lp by lia. }
  destruct (Qle_bool (pow2 k) (p # q)) eqn:Hle.
  - apply Qle_bool_iff in Hle. split; [exact Hle |].
    generalize dependent (p # q). intros a _ Ea Hle.
    generalize dependent (inject_Z (Z.pos q)). intros y. intros.
    generalize dependent (inject_Z p). intros x. intros. nra.
  - assert (Hlt : (p # q) < pow2 k).
    { apply Qnot_le_lt. intros H. apply Qle_bool_iff in H. congruence. }
    replace (k - 1 + 1)%Z with k by lia. split; [| exact Hlt].
    generalize dependent (p # q). intros a _ Ea Hle Hlt.
    generalize dependent (inject_Z (Z.pos q)). intros y. intros.
    generalize dependent (inject_Z p). intros x. intros. nra.
Qed.

Lemma ilog2_unique a L :
  0 < a -> pow2 L <= a -> a < pow2 (L + 1) -> ilog2 a = L.
Proof.
  intros Ha H1 H2. destruct (ilog2_spec a Ha) as [H3 H4].
  assert (pow2 L < pow2 (ilog2 a + 1)) as H5 by lra.
  assert (pow2 (ilog2 a) < pow2 (L + 1)) as H6 by lra.
  apply pow2_lt_inv in H5, H6. lia.
Qed.

Lemma ilog2_le a b : 0 < a -> a <= b -> (ilog2 a <= ilog2 b)%Z.
Proof.
  intros Ha Hab. destruct (ilog2_spec a Ha) as [H1 _].
  destruct (ilog2_spec b ltac:(lra)) as [_ H2].
  assert (pow2 (ilog2 a) < pow2 (ilog2 b + 1)) as H by lra.
  apply pow2_lt_inv in H. lia.
Qed.

Lemma ilog2_comp a b : 0 < a -> a == b -> ilog2 a = ilog2 b.
Proof.
  intros Ha E. symmetry. destruct (ilog2_spec a Ha).
  apply ilog2_unique; lra.
Qed.

(** Rounding to the nearest integer, ties to even. *)
Lemma rint_bounds x : (Qfloor x <= rint x <= Qfloor x + 1)%Z.
Proof.
  unfold rint. destruct (Qcompare _ _); [destruct (Z.even _) | |]; lia.
Qed.

Lemma rint_Z n : rint (inject_Z n) = n.
Proof.
  unfold rint. rewrite Qfloor_Z.
  destruct (Qcompare_spec (inject_Z n - inject_Z n) (1 # 2));
    [exfalso; lra | done | exfalso; lra].
Qed.

Lemma rint_le x y : x <= y -> (rint x <= rint y)%Z.
Proof.
  intros Hxy. pose proof (Qfloor_resp_le _ _ Hxy) as Hf.
  destruct (Z.eq_dec (Qfloor x) (Qfloor y)) as [E | NE].
  - unfold rint. rewrite E.
    destruct (Qcompare_spec (x - inject_Z (Qfloor y)) (1 # 2));
      destruct (Qcompare_spec (y - inject_Z (Qfloor y)) (1 # 2));
      destruct (Z.even (Qfloor y)); try lia; exfalso; lra.
  - pose proof (rint_bounds x). pose proof (rint_bounds y). lia.
Qed.

Lemma rint_comp x y : x == y -> rint x = rint y.
Proof.
  intros E. unfold rint. rewrite (Qfloor_comp x y E).
  assert (E' : x - inject_Z (Qfloor y) == y - inject_Z (Qfloor y)) by lra.
  by rewrite (Qcompare_comp _ _ E' (1 # 2) (1 # 2) (Qeq_refl _)).
Qed.

Lemma rint_upper x n : x <= inject_Z n -> (rint x <= n)%Z.
Proof. intros H. rewrite <- (rint_Z n). by apply rint_le. Qed.

Lemma rint_lower x n : inject_Z n <= x -> (n <= rint x)%Z.
Proof. intros H. rewrite <- (rint_Z n). by apply rint_le. Qed.

End Binary64Facts.

Section RoundFacts.
Local Open Scope Q_scope.

Lemma fexp_ge e : (-1074 <= fexp e)%Z.
Proof. unfold fexp. lia. Qed.

Lemma fexp_mono e e' : (e <= e')%Z -> (fexp e <= fexp e')%Z.
Proof. unfold fexp. lia. Qed.

Lemma inject_Z_nonneg n : (0 <= n)%Z -> 0 <= inject_Z n.
Proof. intros H. change 0 with (inject_Z 0). by rewrite <- Zle_Qle. Qed.

(** The mantissa before rounding, [a / 2^e]. *)
Lemma scaled_upper a :
  0 < a ->
  a / pow2 (fexp (ilog2 a)) < pow2 (ilog2 a + 1 - fexp (ilog2 a)).
Proof.
  intros Ha. destruct (ilog2_spec a Ha) as [_ H].
  apply Qlt_shift_div_r; [apply pow2_pos |].
  by rewrite <- pow2_split.
Qed.

Lemma scaled_lower a :
  0 < a ->
  pow2 (ilog2 a - fexp (ilog2 a)) <= a / pow2 (fexp (ilog2 a)).
Proof.
  intros Ha. destruct (ilog2_spec a Ha) as [H _].
  apply Qle_shift_div_l; [apply pow2_pos |].
  by rewrite <- pow2_split.
Qed.

Lemma scaled_nonneg a e : 0 < a -> 0 <= a / pow2 e.
Proof.
  intros Ha. apply Qle_shift_div_l; [apply pow2_pos | lra].
Qed.

Lemma rnd_pos_nonneg a : 0 < a -> 0 <= rnd_pos a.
Proof.
  intros Ha. unfold rnd_pos.
  pose proof (rint_lower _ 0 (scaled_nonneg a (fexp (ilog2 a)) Ha)) as H.
  apply inject_Z_nonneg in H. pose proof (pow2_pos (fexp (ilog2 a))). nra.
Qed.

Lemma rnd_pos_upper a :
  0 < a -> rnd_pos a <= pow2 (Z.max (ilog2 a + 1) (fexp (ilog2 a))).
Proof.
  intros Ha. unfold rnd_pos.
  set (L := ilog2 a). set (E := fexp L).
  pose proof (scaled_upper a Ha) as Hq. fold L E in Hq.
  pose proof (pow2_pos E) as HE.
  destruct (Z_le_gt_dec 0 (L + 1 - E)) as [Hj | Hj].
  - rewrite (pow2_Z (L + 1 - E)) in Hq by done.
    assert (Hr : (rint (a / pow2 E) <= 2 ^ (L + 1 - E))%Z)
      by (apply rint_upper; lra).
    rewrite Zle_Qle, <- pow2_Z in Hr by done.
    assert (pow2 (L + 1) <= pow2 (Z.max (L + 1) E)) by (apply pow2_le; lia).
    pose proof (pow2_split (L + 1) E). nra.
  - assert (pow2 (L + 1 - E) < pow2 0) as H0 by (apply pow2_lt; lia).
    change (pow2 0) with 1 in H0.
    assert (Hr : (rint (a / pow2 E) <= 1)%Z)
      by (apply rint_upper; change (inject_Z 1) with 1; lra).
    rewrite Zle_Qle in Hr. change (inject_Z 1) with 1 in Hr.
    assert (pow2 E <= pow2 (Z.max (L + 1) E)) by (apply pow2_le; lia).
    nra.
Qed.

Lemma rnd_pos_lower a :
  0 < a -> fexp (ilog2 a) = (ilog2 a - 52)%Z -> pow2 (ilog2 a) <= rnd_pos a.
Proof.
  intros Ha HE. unfold rnd_pos.
  pose proof (scaled_lower a Ha) as Hq. rewrite HE in *.
  replace (ilog2 a - (ilog2 a - 52))%Z with 52%Z in Hq by lia.
  rewrite (pow2_Z 52) in Hq by done.
  apply rint_lower in Hq. rewrite Zle_Qle, <- pow2_Z in Hq by done.
  pose proof (pow2_pos (ilog2 a - 52)).
  pose proof (pow2_add 52 (ilog2 a - 52)) as E.
  replace (52 + (ilog2 a - 52))%Z with (ilog2 a) in E by lia. nra.
Qed.

Lemma rnd_pos_le a b : 0 < a -> a <= b -> rnd_pos a <= rnd_pos b.
Proof.
  intros Ha Hab. assert (Hb : 0 < b) by lra.
  pose proof (ilog2_le a b Ha Hab) as HL.
  pose proof (fexp_mono _ _ HL) as HE.
  destruct (Z.eq_dec (fexp (ilog2 a)) (fexp (ilog2 b))) as [E | NE].
  - unfold rnd_pos. rewrite E. pose proof (pow2_pos (fexp (ilog2 b))) as Hp.
    assert (Hq : a / pow2 (fexp (ilog2 b)) <= b / pow2 (fexp (ilog2 b))).
    { apply Qle_shift_div_l; [done |]. unfold Qdiv.
      rewrite <- Qmult_assoc, (Qmult_comm (/ _)), Qmult_inv_r; lra. }
    apply rint_le in Hq. rewrite Zle_Qle in Hq. nra.
  - assert (HEb : fexp (ilog2 b) = (ilog2 b - 52)%Z).
    { pose proof (fexp_ge (ilog2 a)). unfold fexp in *. lia. }
    assert (HLt : (ilog2 a + 1 <= ilog2 b)%Z).
    { destruct (Z.eq_dec (ilog2 a) (ilog2 b)) as [E' |]; [| lia].
      rewrite E' in NE. done. }
    pose proof (rnd_pos_upper a Ha). pose proof (rnd_pos_lower b Hb HEb).
    assert (pow2 (Z.max (ilog2 a + 1) (fexp (ilog2 a))) <= pow2 (ilog2 b))
      by (apply pow2_le; lia).
    lra.
Qed.

Lemma rnd_pos_comp a b : 0 < a -> a == b -> rnd_pos a == rnd_pos b.
Proof.
  intros Ha E. unfold rnd_pos. rewrite <- (ilog2_comp a b Ha E).
  assert (E' : a / pow2 (fexp (ilog2 a)) == b / pow2 (fexp (ilog2 a))).
  { unfold Qdiv. apply Qmult_comp; [exact E | reflexivity]. }
  rewrite (rint_comp _ _ E'). reflexivity.
Qed.

Lemma rnd_0 : rnd 0 = 0.
Proof. reflexivity. Qed.

Lemma rnd_of_pos x : 0 < x -> rnd x = rnd_pos x.
Proof.
  intros Hx. unfold rnd.
  destruct (Qcompare_spec x 0); [exfalso; lra | exfalso; lra | done].
Qed.

Lemma rnd_of_neg x : x < 0 -> rnd x = - rnd_pos (- x).
Proof.
  intros Hx. unfold rnd.
  destruct (Qcompare_spec x 0); [exfalso; lra | done | exfalso; lra].
Qed.

Lemma rnd_of_zero x : x == 0 -> rnd x = 0.
Proof.
  intros Hx. unfold rnd.
  destruct (Qcompare_spec x 0); [done | exfalso; lra | exfalso; lra].
Qed.

Lemma rnd_nonneg x : 0 <= x -> 0 <= rnd x.
Proof.
  intros Hx. destruct (Qlt_le_dec 0 x) as [Hp | Hz].
  - rewrite rnd_of_pos by done. by apply rnd_pos_nonneg.
  - rewrite rnd_of_zero by lra. lra.
Qed.

Lemma rnd_comp x y : x == y -> rnd x == rnd y.
Proof.
  intros E. destruct (Q_dec x 0) as [[Hn | Hp] | Hz].
  - rewrite !rnd_of_neg by lra.
    assert (E' : - x == - y) by lra.
    rewrite (rnd_pos_comp (- x) (- y)); [reflexivity | lra | exact E'].
  - rewrite !rnd_of_pos by lra. apply rnd_pos_comp; done.
  - rewrite !rnd_of_zero by lra. reflexivity.
Qed.

Lemma rnd_opp x : rnd (- x) == - rnd x.
Proof.
  destruct (Q_dec x 0) as [[Hn | Hp] | Hz].
  - rewrite (rnd_of_neg x), (rnd_of_pos (- x)) by lra. lra.
  - rewrite (rnd_of_pos x), (rnd_of_neg (- x)) by lra.
    assert (E : - - x == x) by lra.
    rewrite (rnd_pos_comp (- - x) x); [reflexivity | lra | exact E].
  - rewrite !rnd_of_zero by lra. lra.
Qed.

(** Rounding is monotone. *)
Lemma rnd_le x y : x <= y -> rnd x <= rnd y.
Proof.
  intros Hxy. destruct (Q_dec x 0) as [[Hn | Hp] | Hz].
  - rewrite (rnd_of_neg x) by done.
    destruct (Qlt_le_dec y 0) as [Hyn | Hyp].
    + rewrite (rnd_of_neg y) by done.
      pose proof (rnd_pos_le (- y) (- x)). lra.
    + pose proof (rnd_nonneg y Hyp). pose proof (rnd_pos_nonneg (- x)). lra.
  - rewrite !rnd_of_pos by lra. by apply rnd_pos_le.
  - rewrite (rnd_of_zero x) by done. apply rnd_nonneg. lra.
Qed.

#[global] Instance rnd_proper : Proper (Qeq ==> Qeq) rnd.
Proof. intros x y E. by apply rnd_comp. Qed.

(** Values of the grid are not changed. *)
Lemma rnd_grid_small n e :
  (0 < n < 2 ^ 53)%Z -> (-1074 <= e)%Z ->
  rnd (inject_Z n * pow2 e) == inject_Z n * pow2 e.
Proof.
  intros Hn He. pose proof (pow2_pos e) as Hpe.
  assert (Hn0 : 0 < inject_Z n)
    by (change 0 with (inject_Z 0); rewrite <- Zlt_Qlt; lia).
  assert (Hy : 0 < inject_Z n * pow2 e) by nra.
  rewrite rnd_of_pos by done.
  set (ln := Z.log2 n).
  destruct (Z.log2_spec n ltac:(lia)) as [H1 H2]. fold ln in H1, H2.
  pose proof (Z.log2_nonneg n) as Hln0. fold ln in Hln0.
  assert (Hln : (ln <= 52)%Z).
  { destruct (Z_le_gt_dec ln 52); [done |].
    assert (2 ^ 53 <= 2 ^ ln)%Z by (apply Z.pow_le_mono_r; lia). lia. }
  rewrite Zle_Qle, <- pow2_Z in H1 by lia.
  rewrite Zlt_Qlt, <- pow2_Z in H2 by lia.
  replace (Z.succ ln) with (ln + 1)%Z in H2 by lia.
  assert (HL : ilog2 (inject_Z n * pow2 e) = (ln + e)%Z).
  { apply ilog2_unique; [done | |].
    - rewrite pow2_add. nra.
    - replace (ln + e + 1)%Z with (ln + 1 + e)%Z by lia.
      rewrite pow2_add. nra. }
  unfold rnd_pos. rewrite HL. set (E := fexp (ln + e)).
  assert (HE : (E <= e)%Z) by (unfold E, fexp; lia).
  pose proof (pow2_pos E) as HpE.
  pose proof (pow2_split e E) as Hs.
  assert (Hq : inject_Z n * pow2 e / pow2 E == inject_Z (n * 2 ^ (e - E))).
  { rewrite inject_Z_mult, <- pow2_Z by lia. rewrite Hs. field. lra. }
  rewrite (rint_comp _ _ Hq), rint_Z.
  rewrite inject_Z_mult, <- pow2_Z by lia. rewrite Hs. ring.
Qed.

Lemma rnd_grid n e :
  (0 <= n <= 2 ^ 53)%Z -> (-1074 <= e)%Z ->
  rnd (inject_Z n * pow2 e) == inject_Z n * pow2 e.
Proof.
  intros Hn He.
  destruct (Z.eq_dec n 0%Z) as [-> | Hn0].
  - rewrite rnd_of_zero; ring.
  - destruct (Z.eq_dec n (2 ^ 53)%Z) as [-> | Hn1].
    + assert (E : inject_Z (2 ^ 53) * pow2 e
                  == inject_Z (2 ^ 52) * pow2 (e + 1)).
      { rewrite pow2_add. change (pow2 1) with 2.
        change (inject_Z (2 ^ 53)) with (inject_Z (2 ^ 52) * 2). ring. }
      rewrite E. apply rnd_grid_small; lia.
    + apply rnd_grid_small; lia.
Qed.

Lemma rnd_on_grid x :
  0 <= x ->
  exists n e, (0 <= n <= 2 ^ 53)%Z /\ (-1074 <= e)%Z /\
              rnd x == inject_Z n * pow2 e.
Proof.
  intros Hx. destruct (Qlt_le_dec 0 x) as [Hp | Hz].
  - rewrite rnd_of_pos by done. unfold rnd_pos.
    set (L := ilog2 x). set (E := fexp L).
    exists (rint (x / pow2 E)), E. split; [| split].
    + split; [apply rint_lower, scaled_nonneg; done |].
      apply rint_upper. pose proof (scaled_upper x Hp) as Hq. fold L E in Hq.
      assert (pow2 (L + 1 - E) <= pow2 53)
        by (apply pow2_le; unfold E, fexp; lia).
      rewrite <- pow2_Z by done. lra.
    + apply fexp_ge.
    + reflexivity.
  - exists 0%Z, 0%Z. rewrite rnd_of_zero by lra.
    split; [lia | split; [lia | ring]].
Qed.

Lemma rnd_idem x : rnd (rnd x) == rnd x.
Proof.
  destruct (Qlt_le_dec x 0) as [Hn | Hp].
  - assert (E : x == - - x) by lra. rewrite E at 1 2.
    rewrite (rnd_opp (- x)), (rnd_opp (rnd (- x))).
    destruct (rnd_on_grid (- x) ltac:(lra)) as (n & e & Hn' & He & Hr).
    rewrite Hr at 1. rewrite rnd_grid by done. rewrite <- Hr.
    rewrite rnd_opp. ring.
  - destruct (rnd_on_grid x Hp) as (n & e & Hn' & He & Hr).
    rewrite Hr at 1. rewrite rnd_grid by done. by rewrite <- Hr.
Qed.

Lemma rnd_Z n : (Z.abs n <= 2 ^ 53)%Z -> rnd (inject_Z n) == inject_Z n.
Proof.
  intros Hn. destruct (Z_le_gt_dec 0 n) as [Hp | Hneg].
  - pose proof (rnd_grid n 0 ltac:(lia) ltac:(lia)) as H.
    change (pow2 0) with 1 in H. rewrite !Qmult_1_r in H. exact H.
  - pose proof (rnd_grid (- n) 0 ltac:(lia) ltac:(lia)) as H.
    change (pow2 0) with 1 in H. rewrite !Qmult_1_r in H.
    rewrite inject_Z_opp, rnd_opp in H. lra.
Qed.

(** From [2^52] on, the values of the grid are integers. *)
Lemma grid_integer y :
  rnd y == y -> pow2 52 <= y -> exists k, y == inject_Z k.
Proof.
  intros Hy H52. pose proof (pow2_pos 52).
  destruct (rnd_on_grid y ltac:(lra)) as (n & e & Hn & He & Hr).
  rewrite Hy in Hr.
  destruct (Z_le_gt_dec 0 e) as [He0 | He0].
  - exists (n * 2 ^ e)%Z. rewrite inject_Z_mult, <- pow2_Z by done. exact Hr.
  - destruct (Z.eq_dec n (2 ^ 53)%Z) as [-> | Hn1].
    + destruct (Z.eq_dec e (-1)%Z) as [-> | He1].
      * exists (2 ^ 52)%Z. rewrite Hr. reflexivity.
      * exfalso. assert (pow2 e <= pow2 (-2)) by (apply pow2_le; lia).
        change (pow2 (-2)) with (1 # 4) in *.
        change (pow2 52) with (inject_Z (2 ^ 52)) in *.
        change (inject_Z (2 ^ 53)) with (inject_Z (2 ^ 52) * 2) in Hr.
        assert (0 < inject_Z (2 ^ 52)) by reflexivity. nra.
    + exfalso. assert (pow2 e <= pow2 (-1)) by (apply pow2_le; lia).
      change (pow2 (-1)) with (1 # 2) in *.
      assert (inject_Z n <= inject_Z (2 ^ 53 - 1))
        by (rewrite <- Zle_Qle; lia).
      assert (0 <= inject_Z n) by (apply inject_Z_nonneg; lia).
      pose proof (pow2_pos e).
      change (pow2 52) with (inject_Z (2 ^ 52)) in *.
      change (inject_Z (2 ^ 53 - 1)) with (inject_Z (2 ^ 52) * 2 - 1) in *.
      nra.
Qed.

Lemma rnd_ceiling y :
  rnd y == y -> 0 <= y -> rnd (inject_Z (Qceiling y)) == inject_Z (Qceiling y).
Proof.
  intros Hy Hy0. destruct (Qlt_le_dec y (pow2 52)) as [Hlt | Hge].
  - apply rnd_Z.
    assert (0 <= Qceiling y)%Z
      by (change 0%Z with (Qceiling 0); by apply Qceiling_resp_le).
    assert (Qceiling y <= 2 ^ 52)%Z.
    { rewrite <- (Qceiling_Z (2 ^ 52)). apply Qceiling_resp_le.
      rewrite <- pow2_Z by done. lra. }
    lia.
  - destruct (grid_integer y Hy Hge) as [k Hk].
    rewrite (Qceiling_comp _ _ Hk), Qceiling_Z, <- Hk. exact Hy.
Qed.

End RoundFacts.

(* ===================================================================== *)
(** ** Float operations *)
(* ===================================================================== *)

Section FloatFacts.
Local Open Scope Q_scope.

Lemma fl_finite x q :
  fl x = Finite q -> q == rnd x /\ - pow2 1024 < rnd x /\ rnd x < pow2 1024.
Proof.
  unfold fl.
  destruct (Qle_bool (pow2 1024) (rnd x)) eqn:E1; [discriminate |].
  destruct (Qle_bool (rnd x) (- pow2 1024)) eqn:E2; [discriminate |].
  intros [= <-]. split; [apply Qred_correct |].
  split; apply Qnot_le_lt; intros H; apply Qle_bool_iff in H; congruence.
Qed.

Lemma fl_in_range x :
  - pow2 1024 < rnd x -> rnd x < pow2 1024 -> fl x = Finite (Qred (rnd x)).
Proof.
  intros H1 H2. unfold fl.
  destruct (Qle_bool (pow2 1024) (rnd x)) eqn:E1;
    [apply Qle_bool_iff in E1; lra |].
  destruct (Qle_bool (rnd x) (- pow2 1024)) eqn:E2;
    [apply Qle_bool_iff in E2; lra | done].
Qed.

Lemma fl_not_nan x : fl x <> NaN.
Proof. unfold fl. by repeat destruct (Qle_bool _ _). Qed.

(** A result that is not negative and below a finite one is finite. *)
Lemma fl_le x y qy :
  0 <= x -> x <= y -> fl y = Finite qy ->
  exists qx, fl x = Finite qx /\ qx == rnd x /\ 0 <= qx /\ qx <= qy.
Proof.
  intros Hx Hxy Hy. apply fl_finite in Hy as (Ey & _ & Hy).
  pose proof (rnd_nonneg x Hx). pose proof (rnd_le x y Hxy).
  pose proof (pow2_pos 1024). pose proof (Qred_correct (rnd x)).
  exists (Qred (rnd x)). rewrite fl_in_range by lra. repeat split; lra.
Qed.

Lemma float_of_int_finite n x :
  float_of_int n = Ok x ->
  exists q, x = Finite q /\ fl (inject_Z n) = Finite q /\
            q == rnd (inject_Z n).
Proof.
  unfold float_of_int. destruct (fl (inject_Z n)) as [q | |] eqn:E;
    [| discriminate | discriminate].
  intros [= <-]. exists q. split; [done |]. split; [done |].
  by apply fl_finite in E as [E _].
Qed.

Lemma float_of_int_raises n e :
  float_of_int n = Raise e ->
  e = OverflowError "int too large to convert to float".
Proof.
  unfold float_of_int. destruct (fl (inject_Z n)); [discriminate | |];
    by intros [= <-].
Qed.

Lemma float_of_int_le n m y :
  (0 <= n <= m)%Z -> float_of_int m = Ok (Finite y) ->
  exists x, float_of_int n = Ok (Finite x) /\ x == rnd (inject_Z n) /\
            0 <= x /\ x <= y.
Proof.
  intros Hnm Hm. apply float_of_int_finite in Hm as (q & [= <-] & Hq & _).
  destruct (fl_le (inject_Z n) (inject_Z m) y) as (x & Hx & Ex & Hx0 & Hxy);
    [apply inject_Z_nonneg; lia | rewrite <- Zle_Qle; lia | done |].
  exists x. unfold float_of_int. by rewrite Hx.
Qed.

(** Integers of at most 53 bits are converted as they are. *)
Lemma float_of_int_exact n :
  (Z.abs n <= 2 ^ 53)%Z ->
  exists x, float_of_int n = Ok (Finite x) /\ x == inject_Z n.
Proof.
  intros Hn. pose proof (rnd_Z n Hn) as E.
  assert (Hb : - pow2 1024 < inject_Z n /\ inject_Z n < pow2 1024).
  { assert (H1 : inject_Z (- 2 ^ 53) <= inject_Z n)
      by (rewrite <- Zle_Qle; lia).
    assert (H2 : inject_Z n <= inject_Z (2 ^ 53))
      by (rewrite <- Zle_Qle; lia).
    assert (H3 : inject_Z (2 ^ 53) < pow2 1024) by reflexivity.
    assert (H4 : - pow2 1024 < inject_Z (- 2 ^ 53)) by reflexivity.
    lra. }
  exists (Qred (rnd (inject_Z n))). unfold float_of_int.
  rewrite fl_in_range by lra. split; [done |].
  by rewrite Qred_correct.
Qed.

(** What a conversion to an integer of a product [n * scale] computes:
    lines 56 and 65, and the candidate extents of the statements. *)
Lemma extent_finite (integer : Q -> Z) n s c :
  and_then (float_of_int n)
    (fun extent => to_integer integer (fmul extent (Finite s))) = Ok c ->
  exists x y,
    float_of_int n = Ok (Finite x) /\ x == rnd (inject_Z n) /\
    fl (x * s) = Finite y /\ y == rnd (x * s) /\ c = integer y.
Proof.
  destruct (float_of_int n) as [ext |] eqn:En; [| discriminate].
  apply float_of_int_finite in En as (x & -> & _ & Ex). simpl.
  destruct (fl (x * s)) as [y | |] eqn:Ey; [| discriminate | discriminate].
  intros [= <-]. exists x, y. repeat split; try done.
  by apply fl_finite in Ey as [Ey _].
Qed.

Lemma extent_computed (integer : Q -> Z) n s x y :
  float_of_int n = Ok (Finite x) -> fl (x * s) = Finite y ->
  and_then (float_of_int n)
    (fun extent => to_integer integer (fmul extent (Finite s)))
  = Ok (integer y).
Proof. intros -> Hy. simpl. by rewrite Hy. Qed.

(** The three conversions are defined on the same floats. *)
Lemma to_integer_raises (f g : Q -> Z) x e :
  to_integer f x = Raise e -> to_integer g x = Raise e.
Proof. by destruct x. Qed.

Lemma to_integer_returns (f g : Q -> Z) x c :
  to_integer f x = Ok c -> exists q, x = Finite q /\ c = f q /\
                                      to_integer g x = Ok (g q).
Proof. destruct x as [q | |]; [| done | done]. intros [= <-]. by exists q. Qed.

(** Truncation and floor agree on whether a value yields an extent that
    is not positive: both do exactly below 1. *)
Lemma trunc_nonneg (x : Q) : 0 <= x -> trunc x = Qfloor x.
Proof.
  intros Hx. unfold trunc. apply Qle_bool_iff in Hx. by rewrite Hx.
Qed.

Lemma trunc_neg (x : Q) : x < 0 -> trunc x = Qceiling x.
Proof.
  intros Hx. unfold trunc. destruct (Qle_bool 0 x) eqn:E; [| done].
  apply Qle_bool_iff in E. lra.
Qed.

Lemma floor_nonpos_iff (x : Q) : (Qfloor x <= 0)%Z <-> x < 1.
Proof.
  split.
  - intros Hfl. pose proof (Qlt_floor x) as Hlt.
    assert (inject_Z (Qfloor x + 1) <= 1)
      by (change 1 with (inject_Z 1); rewrite <- Zle_Qle; lia).
    lra.
  - intros Hlt. pose proof (Qfloor_le x) as Hle.
    assert (inject_Z (Qfloor x) < inject_Z 1) as Hz
      by (change (inject_Z 1) with 1; lra).
    rewrite <- Zlt_Qlt in Hz. lia.
Qed.

Lemma trunc_nonpos_iff (x : Q) : (trunc x <= 0)%Z <-> x < 1.
Proof.
  destruct (Qlt_le_dec x 0) as [Hneg | Hpos].
  - rewrite trunc_neg by done. split; [lra |]. intros _.
    change 0%Z with (Qceiling 0). apply Qceiling_resp_le. lra.
  - rewrite trunc_nonneg by done. apply floor_nonpos_iff.
Qed.

Lemma ceiling_pos (x : Q) : 0 < x -> (1 <= Qceiling x)%Z.
Proof.
  intros Hx. pose proof (Qle_ceiling x) as Hle.
  assert (H : (0 < Qceiling x)%Z)
    by (rewrite Zlt_Qlt; change (inject_Z 0) with 0; lra).
  lia.
Qed.

Lemma ceiling_nonneg (x : Q) : 0 <= x -> (0 <= Qceiling x)%Z.
Proof.
  intros Hx. change 0%Z with (Qceiling 0). by apply Qceiling_resp_le.
Qed.

Lemma ceiling_upper (x : Q) (n : Z) : x <= inject_Z n -> (Qceiling x <= n)%Z.
Proof.
  intros Hx. rewrite <- (Qceiling_Z n). by apply Qceiling_resp_le.
Qed.

Lemma ceiling_lower (x : Q) (n : Z) : inject_Z n <= x -> (n <= Qceiling x)%Z.
Proof.
  intros Hx. rewrite <- (Qceiling_Z n). by apply Qceiling_resp_le.
Qed.

Lemma floor_upper (x : Q) (n : Z) : x <= inject_Z n -> (Qfloor x <= n)%Z.
Proof.
  intros Hx. rewrite <- (Qfloor_Z n). by apply Qfloor_resp_le.
Qed.

Lemma floor_nonneg (x : Q) : 0 <= x -> (0 <= Qfloor x)%Z.
Proof.
  intros Hx. change 0%Z with (Qfloor 0). by apply Qfloor_resp_le.
Qed.

(** The ceiling of a finite float that is not negative is converted to
    a float as it is. *)
Lemma ceiling_grid y :
  rnd y == y -> 0 <= y -> y < pow2 1024 ->
  rnd (inject_Z (Qceiling y)) == inject_Z (Qceiling y) /\
  inject_Z (Qceiling y) < pow2 1024.
Proof.
  intros Hy Hy0 Hy1. split; [by apply rnd_ceiling |].
  destruct (Qlt_le_dec y (pow2 52)) as [Hlt | Hge].
  - assert (Qceiling y <= 2 ^ 52)%Z.
    { apply ceiling_upper. rewrite <- pow2_Z by done. lra. }
    assert (inject_Z (Qceiling y) <= inject_Z (2 ^ 52))
      by (by rewrite <- Zle_Qle).
    assert (inject_Z (2 ^ 52) < pow2 1024) by reflexivity. lra.
  - destruct (grid_integer y Hy Hge) as [k Hk].
    rewrite (Qceiling_comp _ _ Hk), Qceiling_Z, <- Hk. exact Hy1.
Qed.

End FloatFacts.

(* ===================================================================== *)
(** ** [SafeRandomScale.apply] and [dpi_adjusting] *)
(* ===================================================================== *)

Section Scaling.
Context {px : Type}.
Implicit Types img : ndarray px.

(** The extent that line 65 computes and the candidate extent of the
    statements are defined together, on the same product; one is its
    truncation, the other its floor. *)
Lemma scale_extent_floor (n : nat) (scale : float) :
  (exists y, scale_extent n scale = Ok (trunc y) /\
             floor_extent n scale = Ok (Qfloor y)) \/
  (exists e, scale_extent n scale = Raise e /\
             floor_extent n scale = Raise e).
Proof.
  unfold scale_extent, floor_extent, int, floor.
  destruct (float_of_int (Z.of_nat n)) as [extent |]; simpl;
    [| right; by eexists].
  destruct (fmul extent scale) as [y | |]; simpl;
    [left; by exists y | right; by eexists | right; by eexists].
Qed.

(** C4. [SafeRandomScale.apply] returns its input as it is whenever
    [floor (h * scale)] or [floor (w * scale)] is not positive, the
    products being the binary64 products of line 65; otherwise, so
    already for extents equal to 1, it is the call of
    [RandomScale.apply] with the same arguments. The extents that the
    code computes itself, by truncation, are not positive for the same
    images and scales. Where a candidate extent does not exist, the
    product being infinite or NaN, the conversion of line 65 raises. *)
Theorem safe_scale_guard `{Albumentations px} img (scale : float)
    (ip : interpolation) :
  (forall floor_h floor_w,
      floor_extent (height img) scale = Ok floor_h ->
      floor_extent (width img) scale = Ok floor_w ->
      ((floor_h <= 0 \/ floor_w <= 0)%Z ->
       SafeRandomScale_apply img scale ip = Ok img) /\
      ((1 <= floor_h /\ 1 <= floor_w)%Z ->
       SafeRandomScale_apply img scale ip
       = RandomScale_apply img scale ip) /\
      exists new_height new_width,
        scale_extent (height img) scale = Ok new_height /\
        scale_extent (width img) scale = Ok new_width /\
        ((new_height <= 0 \/ new_width <= 0)%Z
         <-> (floor_h <= 0 \/ floor_w <= 0)%Z)) /\
  (forall e,
      floor_extent (height img) scale = Raise e \/
      (exists floor_h,
          floor_extent (height img) scale = Ok floor_h /\
          floor_extent (width img) scale = Raise e) ->
      SafeRandomScale_apply img scale ip = Raise e).
Proof.
  unfold SafeRandomScale_apply.
  destruct (scale_extent_floor (height img) scale)
    as [(yh & Hh & Fh) | (eh & Hh & Fh)];
    destruct (scale_extent_floor (width img) scale)
      as [(yw & Hw & Fw) | (ew & Hw & Fw)];
    rewrite Hh, ?Hw, Fh, Fw; simpl; split.
  - intros floor_h floor_w [= <-] [= <-].
    pose proof (trunc_nonpos_iff yh) as Th.
    pose proof (floor_nonpos_iff yh) as Gh.
    pose proof (trunc_nonpos_iff yw) as Tw.
    pose proof (floor_nonpos_iff yw) as Gw.
    assert (Hiff : (trunc yh <= 0 \/ trunc yw <= 0)%Z
                   <-> (Qfloor yh <= 0 \/ Qfloor yw <= 0)%Z) by tauto.
    split; [| split].
    + intros Hlow. apply Hiff in Hlow.
      destruct (Z.leb_spec (trunc yh) 0), (Z.leb_spec (trunc yw) 0);
        simpl; try done; lia.
    + intros [H1 H2].
      destruct (Z.leb_spec (trunc yh) 0), (Z.leb_spec (trunc yw) 0);
        simpl; try done; exfalso; lia.
    + by exists (trunc yh), (trunc yw).
  - intros e [[=] | (_ & _ & [=])].
  - intros floor_h floor_w _ [=].
  - intros e [[=] | (_ & _ & [= <-])]. done.
  - intros floor_h floor_w [=].
  - by intros e [[= <-] | (_ & [=] & _)].
  - intros floor_h floor_w [=].
  - by intros e [[= <-] | (_ & [=] & _)].
Qed.

(** The extent of line 56 on one axis: for a positive scale and an
    axis that is not empty it is at least 1. *)
Lemma dpi_extent_finite (n : nat) (s : Q) (c : Z) :
  dpi_extent n (Finite s) = Ok c ->
  exists x y,
    float_of_int (Z.of_nat n) = Ok (Finite x) /\
    (x == rnd (inject_Z (Z.of_nat n)))%Q /\
    fl (x * s) = Finite y /\ (y == rnd (x * s))%Q /\ c = Qceiling y.
Proof. apply extent_finite. Qed.

Lemma dpi_extent_pos (n : nat) (s : Q) (c : Z) :
  0 < n -> binary64 s -> (0 < s)%Q ->
  dpi_extent n (Finite s) = Ok c -> (1 <= c)%Z.
Proof.
  intros Hn (Hs & _) Hs0 Hc.
  apply dpi_extent_finite in Hc as (x & y & _ & Ex & _ & Ey & ->).
  apply ceiling_pos.
  assert (H1 : (1 <= x)%Q).
  { rewrite Ex. rewrite <- (rnd_Z 1) by done. apply rnd_le.
    rewrite <- Zle_Qle. lia. }
  assert (H2 : (s <= y)%Q).
  { rewrite Ey. rewrite <- Hs at 1. apply rnd_le. nra. }
  lra.
Qed.

(** For an extent below [2^53], the product is that of the extent
    itself. *)
Lemma dpi_extent_small (n : nat) (s : Q) (c : Z) :
  (Z.of_nat n <= 2 ^ 53)%Z ->
  dpi_extent n (Finite s) = Ok c ->
  c = Qceiling (rnd (inject_Z (Z.of_nat n) * s)).
Proof.
  intros Hn Hc.
  apply dpi_extent_finite in Hc as (x & y & _ & Ex & _ & Ey & ->).
  apply Qceiling_comp. rewrite Ey. apply rnd_comp.
  rewrite Ex, rnd_Z by lia. reflexivity.
Qed.

(** With both extents at least 1, the call of line 57 returns an
    image of exactly these extents. *)
Lemma dpi_adjusting_returns `{OpenCV px} img (scale : float)
    (new_h new_w : Z) :
  0 < height img -> 0 < width img ->
  (1 <= new_h)%Z -> (1 <= new_w)%Z ->
  dpi_extent (height img) scale = Ok new_h ->
  dpi_extent (width img) scale = Ok new_w ->
  dpi_adjusting img scale = cv_resize img (new_w, new_h) INTER_LINEAR /\
  exists out,
    dpi_adjusting img scale = Ok out /\
    shape out = (Z.to_nat new_h, Z.to_nat new_w) /\
    Z.of_nat (height out) = new_h /\
    Z.of_nat (width out) = new_w.
Proof.
  intros Hh Hw Hnh1 Hnw1 Hnh Hnw.
  assert (Hcall : dpi_adjusting img scale
                  = cv_resize img (new_w, new_h) INTER_LINEAR).
  { unfold dpi_adjusting. by rewrite Hnh, Hnw. }
  split; [done |]. rewrite Hcall.
  destruct (cv_resize_total img new_w new_h INTER_LINEAR Hh Hw
              ltac:(lia) ltac:(lia)) as [out Hout].
  pose proof (cv_resize_shape _ _ _ _ _ Hout) as Hshape.
  exists out. split; [done |]. split; [done |].
  unfold height at 1, width at 1. rewrite Hshape. simpl. lia.
Qed.

(** C5, as amended. On an image that is not empty and for a positive
    scale with which the two products of line 56 do not overflow,
    [dpi_adjusting] is the call of [cv.resize] for [new_w] columns and
    [new_h] rows, both at least 1, and returns an image of exactly
    [new_h = ceil (h * scale)] rows and [new_w = ceil (w * scale)]
    columns, the products being rounded to binary64; a (100, 100) image
    and the scale 0.5 give a (50, 50) image. *)
Theorem dpi_adjusting_shape `{OpenCV px} img (scale : Q) (new_h new_w : Z) :
  0 < height img -> 0 < width img ->
  binary64 scale -> (0 < scale)%Q ->
  dpi_extent (height img) (Finite scale) = Ok new_h ->
  dpi_extent (width img) (Finite scale) = Ok new_w ->
  (1 <= new_h)%Z /\ (1 <= new_w)%Z /\
  ((Z.of_nat (height img) <= 2 ^ 53)%Z ->
   new_h = Qceiling (rnd (inject_Z (Z.of_nat (height img)) * scale))) /\
  ((Z.of_nat (width img) <= 2 ^ 53)%Z ->
   new_w = Qceiling (rnd (inject_Z (Z.of_nat (width img)) * scale))) /\
  dpi_adjusting img (Finite scale)
    = cv_resize img (new_w, new_h) INTER_LINEAR /\
  exists out,
    dpi_adjusting img (Finite scale) = Ok out /\
    Z.of_nat (height out) = new_h /\
    Z.of_nat (width out) = new_w /\
    (shape img = (100, 100) -> (scale == 1 # 2)%Q -> shape out = (50, 50)).
Proof.
  intros Hh Hw Hs Hs0 Hnh Hnw.
  pose proof (dpi_extent_pos _ _ _ Hh Hs Hs0 Hnh) as Hnh1.
  pose proof (dpi_extent_pos _ _ _ Hw Hs Hs0 Hnw) as Hnw1.
  destruct (dpi_adjusting_returns img (Finite scale) new_h new_w
              Hh Hw Hnh1 Hnw1 Hnh Hnw)
    as (Hcall & out & Hout & Hshape & Hho & Hwo).
  split; [done |]. split; [done |].
  split; [intros Hsmall; by apply dpi_extent_small |].
  split; [intros Hsmall; by apply dpi_extent_small |].
  split; [done |]. exists out. split; [done |].
  split; [done |]. split; [done |].
  intros Himg Hhalf. rewrite Hshape.
  assert (E : Qceiling (rnd (inject_Z (Z.of_nat 100) * scale)) = 50%Z).
  { assert (E' : (rnd (inject_Z (Z.of_nat 100) * scale)
                  == rnd (inject_Z (Z.of_nat 100) * (1 # 2)))%Q)
      by (apply rnd_comp; rewrite Hhalf; reflexivity).
    rewrite (Qceiling_comp _ _ E'). by vm_compute. }
  assert (Eh : height img = 100) by (unfold height; by rewrite Himg).
  assert (Ew : width img = 100) by (unfold width; by rewrite Himg).
  assert (Hsh : (Z.of_nat (height img) <= 2 ^ 53)%Z) by (rewrite Eh; lia).
  assert (Hsw : (Z.of_nat (width img) <= 2 ^ 53)%Z) by (rewrite Ew; lia).
  rewrite (dpi_extent_small _ _ _ Hsh Hnh), (dpi_extent_small _ _ _ Hsw Hnw).
  by rewrite Eh, Ew, E.
Qed.

(** When an extent of line 56 cannot be computed, or [cv.resize] is
    given an empty image, the call raises. *)
Lemma dpi_adjusting_overflows `{OpenCV px} img (scale : float) e :
  dpi_extent (height img) scale = Raise e ->
  dpi_adjusting img scale = Raise e.
Proof. intros Hh. unfold dpi_adjusting. by rewrite Hh. Qed.

Lemma dpi_adjusting_empty `{OpenCV px} img (scale : float) :
  height img = 0 \/ width img = 0 ->
  forall out, dpi_adjusting img scale <> Ok out.
Proof.
  intros Hempty out. unfold dpi_adjusting.
  destruct (dpi_extent (height img) scale) as [nh |]; [| done].
  destruct (dpi_extent (width img) scale) as [nw |]; [| done]. simpl.
  destruct (cv_resize_rejects img nw nh INTER_LINEAR) as [msg Hmsg];
    [tauto |].
  by rewrite Hmsg.
Qed.

End Scaling.

(* ===================================================================== *)
(** ** The pipelines of [IAMImageTransforms] *)
(* ===================================================================== *)

Section Pipelines.
Variables (max_img_size : Z * Z) (normalize_params : float * float).
Variables (scale random_scale_limit : float) (random_rotate_limit : Z).

(** Lines 106-183, for a padded frame. *)
Let pipelines (padded_h padded_w : Z) (parse_method : string)
  : outcome IAMImageTransforms :=
  build_pipelines max_img_size parse_method normalize_params scale
    random_scale_limit random_rotate_limit padded_h padded_w.

(** Lines 91-183. *)
Let build (parse_method : string) : outcome IAMImageTransforms :=
  post_init max_img_size parse_method normalize_params scale
    random_scale_limit random_rotate_limit.

(** The construction is that of the pipelines once lines 100-104 have
    computed the frame, and raises what they raise. *)
Lemma post_init_frame (padded_h padded_w : Z) (parse_method : string) :
  padded_size_of scale random_scale_limit max_img_size
    = Ok (padded_h, padded_w) ->
  build parse_method = pipelines padded_h padded_w parse_method.
Proof. intros Hp. unfold build, post_init. by rewrite Hp. Qed.

Lemma post_init_no_frame (e : exn) (parse_method : string) :
  padded_size_of scale random_scale_limit max_img_size = Raise e ->
  build parse_method = Raise e.
Proof. intros Hp. unfold build, post_init. by rewrite Hp. Qed.

(** C6. Whatever the other parameters and the padded frame, the method
    "word" gives a train pipeline of exactly six stages, in the order DPI
    adjustment, safe random scale, safe rotation, brightness and
    contrast, Gaussian noise, normalisation; the method "form" gives a
    train pipeline of exactly eight stages, the last of which is
    [randomly_displace_and_pad] with the padded frame and
    [crop_if_necessary=True]. The construction returns these objects
    whenever lines 100-104 compute the frame. *)
Theorem train_pipeline_stages (padded_h padded_w : Z) :
  (exists t,
      pipelines padded_h padded_w "word" = Ok t /\
      length (stages (train_trnsf t)) = 6 /\
      stages (train_trnsf t) =
        [ Lambda (partial_dpi_adjusting scale);
          SafeRandomScale random_scale_limit (literal (1 # 2));
          SafeRotate random_rotate_limit BORDER_CONSTANT 0;
          RandomBrightnessContrast;
          GaussNoise;
          Normalize (fst normalize_params) (snd normalize_params) ]) /\
  (exists t,
      pipelines padded_h padded_w "form" = Ok t /\
      length (stages (train_trnsf t)) = 8 /\
      last (stages (train_trnsf t)) =
        Some (Lambda (partial_randomly_displace_and_pad
                        (padded_h, padded_w) true))) /\
  (padded_size_of scale random_scale_limit max_img_size
     = Ok (padded_h, padded_w) ->
   build "word" = pipelines padded_h padded_w "word" /\
   build "form" = pipelines padded_h padded_w "form").
Proof.
  split; [| split].
  - eexists. split; [reflexivity |]. split; reflexivity.
  - eexists. split; [reflexivity |]. split; reflexivity.
  - intros Hp. split; by apply post_init_frame.
Qed.

(** C7. A parse method other than "word", "line" and "form" makes
    lines 106-183 raise a [ValueError] whose message starts with the
    method given, whatever the frame; so does the construction once the
    frame is computed, and in no case does it return an object, hence a
    pipeline. *)
Theorem unknown_parse_method (parse_method : string) :
  parse_method <> "word" -> parse_method <> "line" ->
  parse_method <> "form" ->
  (forall padded_h padded_w,
      pipelines padded_h padded_w parse_method
      = Raise (ValueError (parse_method +:+ " is not a valid parse method."))) /\
  (forall padded_h padded_w,
      padded_size_of scale random_scale_limit max_img_size
        = Ok (padded_h, padded_w) ->
      build parse_method
      = Raise (ValueError (parse_method +:+ " is not a valid parse method."))) /\
  (forall t, build parse_method <> Ok t).
Proof.
  intros Hword Hline Hform.
  assert (E : forall padded_h padded_w,
             pipelines padded_h padded_w parse_method
             = Raise (ValueError
                        (parse_method +:+ " is not a valid parse method."))).
  { intros padded_h padded_w. unfold pipelines, build_pipelines.
    apply String.eqb_neq in Hword, Hline, Hform.
    by rewrite Hword, Hline, Hform. }
  split; [done |]. split.
  - intros padded_h padded_w Hp. by rewrite (post_init_frame _ _ _ Hp).
  - intros t.
    destruct (padded_size_of scale random_scale_limit max_img_size)
      as [[padded_h padded_w] |] eqn:Hp.
    + by rewrite (post_init_frame _ _ _ Hp), E.
    + by rewrite (post_init_no_frame _ _ Hp).
Qed.

(** C9. With the other parameters equal, "word" and "line" give the same
    train pipeline and the same test pipeline, whatever the frame; the
    two constructions return these objects once the frame is computed,
    and raise the same exception when it is not. *)
Theorem word_line_same_recipe :
  (forall padded_h padded_w,
      exists tw tl,
        pipelines padded_h padded_w "word" = Ok tw /\
        pipelines padded_h padded_w "line" = Ok tl /\
        train_trnsf tw = train_trnsf tl /\
        test_trnsf tw = test_trnsf tl) /\
  (forall padded_h padded_w,
      padded_size_of scale random_scale_limit max_img_size
        = Ok (padded_h, padded_w) ->
      exists tw tl,
        build "word" = Ok tw /\ build "line" = Ok tl /\
        train_trnsf tw = train_trnsf tl /\
        test_trnsf tw = test_trnsf tl) /\
  (forall e,
      padded_size_of scale random_scale_limit max_img_size = Raise e ->
      build "word" = Raise e /\ build "line" = Raise e).
Proof.
  split; [| split].
  - intros padded_h padded_w. do 2 eexists. repeat split; reflexivity.
  - intros padded_h padded_w Hp. rewrite !(post_init_frame _ _ _ Hp).
    do 2 eexists. repeat split; reflexivity.
  - intros e Hp. split; by apply post_init_no_frame.
Qed.

End Pipelines.

(* ===================================================================== *)
(** ** The padded frame *)
(* ===================================================================== *)

Section PaddedFrame.
Local Open Scope Q_scope.

(** One extent of the frame, as line 102 computes it. *)
Lemma padded_extent_finite (s l : Q) (m : Z) (extent : float) (p : Z) :
  float_of_int m = Ok extent ->
  ceil (fmul (max_scale (Finite s) (Finite l)) extent) = Ok p ->
  exists r ms x y,
    fl (s * l) = Finite r /\ r == rnd (s * l) /\
    fl (s + r) = Finite ms /\ ms == rnd (s + r) /\
    max_scale (Finite s) (Finite l) = Finite ms /\
    extent = Finite x /\ x == rnd (inject_Z m) /\
    fl (ms * x) = Finite y /\ y == rnd (ms * x) /\
    p = Qceiling y.
Proof.
  intros Hm Hp. apply float_of_int_finite in Hm as (x & -> & _ & Ex).
  unfold max_scale in *. simpl in *.
  destruct (fl (s * l)) as [r | b |] eqn:Er; simpl in *.
  - destruct (fl (s + r)) as [ms | b |] eqn:Ems; simpl in *.
    + destruct (fl (ms * x)) as [y | b |] eqn:Ey; simpl in *;
        [| discriminate | discriminate].
      injection Hp as <-. exists r, ms, x, y.
      apply fl_finite in Er as [Er _].
      pose proof (fl_finite _ _ Ems) as [Ems' _].
      pose proof (fl_finite _ _ Ey) as [Ey' _].
      repeat split; done.
    + by destruct (Qcompare x 0).
    + done.
  - by destruct (Qcompare x 0).
  - done.
Qed.

Lemma padded_size_inv (scale limit : float) (max_img_size : Z * Z)
    (padded_h padded_w : Z) :
  padded_size_of scale limit max_img_size = Ok (padded_h, padded_w) ->
  (exists extent, float_of_int (fst max_img_size) = Ok extent /\
                  ceil (fmul (max_scale scale limit) extent) = Ok padded_h) /\
  (exists extent, float_of_int (snd max_img_size) = Ok extent /\
                  ceil (fmul (max_scale scale limit) extent) = Ok padded_w).
Proof.
  unfold padded_size_of.
  destruct (float_of_int (fst max_img_size)) as [eh |]; [| done]. simpl.
  destruct (ceil (fmul (max_scale scale limit) eh)) as [ph |] eqn:Hph;
    [| done].
  simpl.
  destruct (float_of_int (snd max_img_size)) as [ew |]; [| done]. simpl.
  destruct (ceil (fmul (max_scale scale limit) ew)) as [pw |] eqn:Hpw;
    [| done].
  simpl. intros [= <- <-]. split; eexists; by split.
Qed.

Lemma padded_size_intro (scale limit : float) (max_img_size : Z * Z)
    (extent_h extent_w : float) (padded_h padded_w : Z) :
  float_of_int (fst max_img_size) = Ok extent_h ->
  ceil (fmul (max_scale scale limit) extent_h) = Ok padded_h ->
  float_of_int (snd max_img_size) = Ok extent_w ->
  ceil (fmul (max_scale scale limit) extent_w) = Ok padded_w ->
  padded_size_of scale limit max_img_size = Ok (padded_h, padded_w).
Proof.
  intros Heh Hph Hew Hpw. unfold padded_size_of.
  rewrite Heh. simpl. rewrite Hph. simpl. rewrite Hew. simpl.
  by rewrite Hpw.
Qed.

(** The scale of line 100 is not below [scale]. *)
Lemma max_scale_ge (s l r ms : Q) :
  rnd s == s -> 0 <= s -> 0 <= l ->
  r == rnd (s * l) -> ms == rnd (s + r) -> 0 <= r /\ s <= ms.
Proof.
  intros Hs Hs0 Hl0 Er Ems.
  assert (Hr : 0 <= r) by (rewrite Er; apply rnd_nonneg; nra).
  split; [done |]. rewrite Ems, <- Hs at 1. apply rnd_le. lra.
Qed.

(** One axis: an image extent [n] of at most [m], the largest extent,
    and [p], the extent of the frame. After DPI adjustment the extent is
    [c], at most [p]; random scaling by [f] in [0, 1] makes it [e], at
    most [c]. *)
Lemma padded_axis (s l f : Q) (n : nat) (m : Z) (extent : float) (p : Z) :
  rnd s == s -> 0 <= s -> 0 <= l -> 0 <= f -> f <= 1 ->
  (Z.of_nat n <= m)%Z ->
  float_of_int m = Ok extent ->
  ceil (fmul (max_scale (Finite s) (Finite l)) extent) = Ok p ->
  exists c e,
    dpi_extent n (Finite s) = Ok c /\
    scale_extent (Z.to_nat c) (Finite f) = Ok e /\
    (0 <= e)%Z /\ (e <= c)%Z /\ (c <= p)%Z.
Proof.
  intros Hs Hs0 Hl0 Hf0 Hf1 Hnm Hm Hp.
  destruct (padded_extent_finite s l m extent p Hm Hp)
    as (r & ms & xm & Y & _ & Er & _ & Ems & _ & -> & Exm & HY & EY & ->).
  destruct (max_scale_ge s l r ms Hs Hs0 Hl0 Er Ems) as [Hr Hms].
  destruct (float_of_int_le (Z.of_nat n) m xm ltac:(lia) Hm)
    as (xn & Hxn & Exn & Hxn0 & Hxnm).
  destruct (fl_le (xn * s) (ms * xm) Y ltac:(nra) ltac:(nra) HY)
    as (y & Hy & Ey & Hy0 & HyY).
  set (c := Qceiling y).
  assert (Hc : dpi_extent n (Finite s) = Ok c)
    by exact (extent_computed Qceiling _ _ _ _ Hxn Hy).
  assert (Hc0 : (0 <= c)%Z) by by apply ceiling_nonneg.
  assert (HcY : (c <= Qceiling Y)%Z) by by apply Qceiling_resp_le.
  assert (Hygrid : rnd y == y) by (rewrite Ey; apply rnd_idem).
  assert (Hyrange : y < pow2 1024).
  { apply fl_finite in Hy as (_ & _ & Hy). lra. }
  destruct (ceiling_grid y Hygrid Hy0 Hyrange) as [Hcgrid Hcrange].
  fold c in Hcgrid, Hcrange.
  assert (Hc0' : 0 <= inject_Z c) by by apply inject_Z_nonneg.
  pose proof (pow2_pos 1024) as Hpow.
  assert (Hxc : float_of_int (Z.of_nat (Z.to_nat c))
                = Ok (Finite (Qred (rnd (inject_Z c))))).
  { rewrite Z2Nat.id by done. unfold float_of_int.
    rewrite fl_in_range by lra. done. }
  set (xc := Qred (rnd (inject_Z c))) in *.
  assert (Exc : xc == inject_Z c)
    by (unfold xc; by rewrite Qred_correct).
  assert (Hprod : rnd (xc * f) <= inject_Z c).
  { rewrite <- Hcgrid. apply rnd_le. nra. }
  assert (Hprod0 : 0 <= rnd (xc * f)) by (apply rnd_nonneg; nra).
  assert (Hz : fl (xc * f) = Finite (Qred (rnd (xc * f))))
    by (apply fl_in_range; lra).
  exists c, (trunc (Qred (rnd (xc * f)))).
  split; [done |].
  split; [exact (extent_computed trunc _ _ _ _ Hxc Hz) |].
  assert (Ez : Qred (rnd (xc * f)) == rnd (xc * f)) by apply Qred_correct.
  rewrite trunc_nonneg by lra.
  split; [apply floor_nonneg; lra |].
  split; [apply floor_upper; lra | done].
Qed.

(** C8, as amended. The frame of the "form" train pipeline is fixed at
    construction as [(ceil (max_scale * max_img_h), ceil (max_scale *
    max_img_w))] with [max_scale = scale + scale * random_scale_limit],
    every operation rounded to binary64. For a scale and a limit that
    are not negative, an image no larger than [max_img_size] and a
    factor [f] between 0 and 1, the frame holds the image after DPI
    adjustment, and after DPI adjustment followed by random scaling by
    [f]. *)
Theorem padded_frame_bound (scale limit : Q) (max_img_size : Z * Z)
    (normalize_params : float * float) (rotate_limit : Z) (h w : nat)
    (f : Q) (padded_h padded_w : Z) :
  binary64 scale -> 0 <= scale -> 0 <= limit -> 0 <= f -> f <= 1 ->
  (Z.of_nat h <= fst max_img_size)%Z ->
  (Z.of_nat w <= snd max_img_size)%Z ->
  padded_size_of (Finite scale) (Finite limit) max_img_size
    = Ok (padded_h, padded_w) ->
  (exists t,
      post_init max_img_size "form" normalize_params (Finite scale)
        (Finite limit) rotate_limit = Ok t /\
      last (stages (train_trnsf t))
        = Some (Lambda (partial_randomly_displace_and_pad
                          (padded_h, padded_w) true))) /\
  (exists max_img_h max_img_w,
      float_of_int (fst max_img_size) = Ok max_img_h /\
      float_of_int (snd max_img_size) = Ok max_img_w /\
      ceil (fmul (fadd (Finite scale) (fmul (Finite scale) (Finite limit)))
              max_img_h) = Ok padded_h /\
      ceil (fmul (fadd (Finite scale) (fmul (Finite scale) (Finite limit)))
              max_img_w) = Ok padded_w) /\
  (exists dpi_h dpi_w new_h new_w,
      dpi_extent h (Finite scale) = Ok dpi_h /\
      dpi_extent w (Finite scale) = Ok dpi_w /\
      scale_extent (Z.to_nat dpi_h) (Finite f) = Ok new_h /\
      scale_extent (Z.to_nat dpi_w) (Finite f) = Ok new_w /\
      (0 <= new_h <= dpi_h)%Z /\ (dpi_h <= padded_h)%Z /\
      (0 <= new_w <= dpi_w)%Z /\ (dpi_w <= padded_w)%Z) /\
  frame_holds (Finite scale) (Finite limit) max_img_size h w (Finite f).
Proof.
  intros (Hs & _) Hs0 Hl0 Hf0 Hf1 Hh Hw Hp.
  destruct (padded_size_inv _ _ _ _ _ Hp)
    as [(eh & Heh & Hph) (ew & Hew & Hpw)].
  destruct (padded_axis scale limit f h _ eh padded_h
              Hs Hs0 Hl0 Hf0 Hf1 Hh Heh Hph)
    as (ch & nh & Hch & Hnh & Hnh0 & Hnhc & Hchp).
  destruct (padded_axis scale limit f w _ ew padded_w
              Hs Hs0 Hl0 Hf0 Hf1 Hw Hew Hpw)
    as (cw & nw & Hcw & Hnw & Hnw0 & Hnwc & Hcwp).
  split; [| split; [| split]].
  - unfold post_init. rewrite Hp. eexists. split; reflexivity.
  - by exists eh, ew.
  - exists ch, cw, nh, nw. repeat split; done.
  - exists padded_h, padded_w, ch, cw, nh, nw. repeat split; try done; lia.
Qed.

(** C8, where it fails: with scale 0.125 and limit 0.375, values that
    binary64 holds exactly, the frame for images of at most 17 by 17
    pixels is 3 by 3, but a 17 by 17 image is 3 by 3 after DPI adjustment
    and 4 by 4 after scaling by 1.34375, a factor inside the range from
    0.625 to 1.375. *)
Lemma padded_frame_too_small :
  binary64 (1 # 8) /\ binary64 (3 # 8) /\ binary64 (43 # 32) /\
  (0 < 1 # 8) /\ (0 < 43 # 32) /\
  (1 - (3 # 8) < 43 # 32) /\ (43 # 32 < 1 + (3 # 8)) /\
  (Z.of_nat 17 <= 17)%Z /\
  padded_size_of (Finite (1 # 8)) (Finite (3 # 8)) (17, 17)%Z
    = Ok (3, 3)%Z /\
  dpi_extent 17 (Finite (1 # 8)) = Ok 3%Z /\
  scale_extent 3 (Finite (43 # 32)) = Ok 4%Z /\
  ~ frame_holds (Finite (1 # 8)) (Finite (3 # 8)) (17, 17)%Z 17 17
      (Finite (43 # 32)).
Proof.
  split; [vm_compute; repeat split; reflexivity |].
  split; [vm_compute; repeat split; reflexivity |].
  split; [vm_compute; repeat split; reflexivity |].
  split; [reflexivity |]. split; [reflexivity |].
  split; [reflexivity |]. split; [reflexivity |]. split; [lia |].
  assert (Hp : padded_size_of (Finite (1 # 8)) (Finite (3 # 8)) (17, 17)%Z
               = Ok (3, 3)%Z) by (vm_compute; reflexivity).
  assert (Hd : dpi_extent 17 (Finite (1 # 8)) = Ok 3%Z)
    by (vm_compute; reflexivity).
  assert (Hn : scale_extent 3 (Finite (43 # 32)) = Ok 4%Z)
    by (vm_compute; reflexivity).
  split; [exact Hp |]. split; [exact Hd |]. split; [exact Hn |].
  intros (ph & pw & ch & cw & nh & nw & Hp' & Hch & _ & Hnh & _ & Hle & _).
  rewrite Hp in Hp'. injection Hp' as <- <-.
  rewrite Hd in Hch. injection Hch as <-.
  change (Z.to_nat 3%Z) with 3%nat in Hnh. rewrite Hn in Hnh.
  injection Hnh as <-. lia.
Qed.

End PaddedFrame.

(* ===================================================================== *)
(** ** The claims at the reference inputs *)
(* ===================================================================== *)

(** The stand-in meets the contract assumed of [cv.resize]. *)
Lemma nearest_resize_shape {px} (zero : px) src dsize_w dsize_h ip out :
  nearest_resize zero src (dsize_w, dsize_h) ip = Ok out ->
  shape out = (Z.to_nat dsize_h, Z.to_nat dsize_w).
Proof.
  unfold nearest_resize; simpl.
  destruct (_ || _); [discriminate |]. by intros [= <-].
Qed.

Lemma nearest_resize_total {px} (zero : px) src dsize_w dsize_h ip :
  0 < height src -> 0 < width src ->
  (0 < dsize_w)%Z -> (0 < dsize_h)%Z ->
  exists out, nearest_resize zero src (dsize_w, dsize_h) ip = Ok out.
Proof.
  intros Hh Hw Hdw Hdh. unfold nearest_resize; simpl.
  destruct (Nat.eqb_spec (height src) 0); [lia |].
  destruct (Nat.eqb_spec (width src) 0); [lia |].
  destruct (Z.leb_spec dsize_w 0); [lia |].
  destruct (Z.leb_spec dsize_h 0); [lia |].
  simpl. eauto.
Qed.

Lemma nearest_resize_rejects {px} (zero : px) src dsize_w dsize_h ip :
  height src = 0 \/ width src = 0 \/ (dsize_w <= 0)%Z \/ (dsize_h <= 0)%Z ->
  exists msg,
    nearest_resize zero src (dsize_w, dsize_h) ip = Raise (CvError msg).
Proof.
  intros Hbad. unfold nearest_resize; simpl.
  destruct (Nat.eqb_spec (height src) 0); [by eexists |].
  destruct (Nat.eqb_spec (width src) 0); [by eexists |].
  destruct (Z.leb_spec dsize_w 0); [by eexists |].
  destruct (Z.leb_spec dsize_h 0); [by eexists |].
  lia.
Qed.

Definition nearest_cv : OpenCV Z := {|
  cv_resize := nearest_resize 0%Z;
  cv_resize_shape := nearest_resize_shape 0%Z;
  cv_resize_total := nearest_resize_total 0%Z;
  cv_resize_rejects := nearest_resize_rejects 0%Z
|}.

(** *** The arithmetic, run *)

(** The literals of the source and of the statements. *)
Example binary64_literals :
  literal (1 # 2) = Finite (1 # 2) /\
  literal (1 # 10) = Finite (3602879701896397 # 36028797018963968) /\
  literal (1 # 3) = Finite (6004799503160661 # 18014398509481984) /\
  literal (7 # 100) = Finite (1261007895663739 # 18014398509481984) /\
  literal (11 # 10) = Finite (2476979795053773 # 2251799813685248).
Proof. repeat split; vm_compute; reflexivity. Qed.

(** Products and sums are rounded: three thirds and ten tenths are 1,
    a hundred times 0.07 is above 7, and [scale + scale * limit] is not
    [scale * (1 + limit)]. *)
Example binary64_rounding :
  fmul (Finite 3) (literal (1 # 3)) = Finite 1 /\
  fmul (Finite 10) (literal (1 # 10)) = Finite 1 /\
  fmul (Finite 100) (literal (7 # 100))
    = Finite (7881299347898369 # 1125899906842624) /\
  ceil (fmul (Finite 100) (literal (7 # 100))) = Ok 8%Z /\
  max_scale (literal (5 # 100)) (literal (2 # 10))
    = Finite (8646911284551353 # 144115188075855872) /\
  fmul (literal (5 # 100)) (fadd (Finite 1) (literal (2 # 10)))
    = Finite (1080863910568919 # 18014398509481984).
Proof. repeat split; vm_compute; reflexivity. Qed.

(** Overflow, and what the conversions make of it. *)
Example binary64_overflow :
  fmul (Finite 100) (Finite (pow2 1023)) = Infinity false /\
  ceil (fmul (Finite 100) (Finite (pow2 1023)))
    = Raise (OverflowError "cannot convert float infinity to integer") /\
  int (fmul (Finite 0) (Infinity false))
    = Raise (ValueError "cannot convert float NaN to integer") /\
  float_of_int (2 ^ 1024)
    = Raise (OverflowError "int too large to convert to float") /\
  float_of_int (2 ^ 53 + 1) = Ok (Finite (inject_Z (2 ^ 53))).
Proof. repeat split; vm_compute; reflexivity. Qed.

(** On the reference operands, products, sums and conversions are those
    of Stdlib's specification of IEEE 754. *)
Example agrees_with_spec_float :
  Forall (fun xy =>
            of_spec_float (SFmul 53 1024 (fst xy) (snd xy))
              = fmul (of_spec_float (fst xy)) (of_spec_float (snd xy)) /\
            of_spec_float (SFadd 53 1024 (fst xy) (snd xy))
              = fadd (of_spec_float (fst xy)) (of_spec_float (snd xy)))
    reference_operands /\
  Forall (fun n => of_spec_float (binary_normalize 53 1024 n 0 false)
                   = fl (inject_Z n))
    [0; 1; 17; -17; 2 ^ 53; 2 ^ 53 + 1; 2 ^ 53 + 3; 2 ^ 60 + 2 ^ 7;
     2 ^ 1023; 2 ^ 1024 - 2 ^ 970 - 1; 2 ^ 1024 - 2 ^ 970; 2 ^ 1024]%Z.
Proof.
  split; apply (bool_decide_unpack _); vm_compute; exact I.
Qed.

(** The frame at the defaults of the dataclass, for images of at most
    100 by 200 pixels. *)
Example default_frame :
  default_scale = Finite (1 # 2) /\
  default_random_scale_limit
    = Finite (3602879701896397 # 36028797018963968) /\
  max_scale default_scale default_random_scale_limit
    = Finite (2476979795053773 # 4503599627370496) /\
  padded_size_of default_scale default_random_scale_limit (100, 200)%Z
    = Ok (56, 111)%Z.
Proof. repeat split; vm_compute; reflexivity. Qed.

(** *** The claims *)

(** C1 at the 2 by 3 ramp and the frame (4, 5). *)
Lemma displace_places_image_witness :
  wf (ramp 2 3) /\
  exists res w' pad_top pad_left,
    randomly_displace_and_pad 0%Z (ramp 2 3) (4, 5)%Z false counting_world
      = (Ok res, w') /\
    (Z.of_nat (height res) = 4 /\ Z.of_nat (width res) = 5)%Z /\
    dtype res = dtype (ramp 2 3) /\
    wf res /\
    (0 <= pad_top <= 4 - Z.of_nat (height (ramp 2 3)))%Z /\
    (0 <= pad_left <= 5 - Z.of_nat (width (ramp 2 3)))%Z /\
    getitem res pad_top (pad_top + Z.of_nat (height (ramp 2 3)))
                pad_left (pad_left + Z.of_nat (width (ramp 2 3)))
      = ramp 2 3 /\
    (forall i j : nat,
        (Z.of_nat i < 4)%Z -> (Z.of_nat j < 5)%Z ->
        ~ ((pad_top <= Z.of_nat i
            < pad_top + Z.of_nat (height (ramp 2 3)))%Z /\
           (pad_left <= Z.of_nat j
            < pad_left + Z.of_nat (width (ramp 2 3)))%Z) ->
        pixel res i j = Some 0%Z).
Proof.
  assert (Hwf : wf (ramp 2 3))
    by (apply (bool_decide_unpack _); vm_compute; exact I).
  split; [exact Hwf |].
  apply (displace_places_image 0%Z (ramp 2 3) 4 5 false counting_world);
    [exact Hwf | now vm_compute | now vm_compute].
Defined.

(** C3 at the 10 by 10 ramp and the frame (5, 5). *)
Lemma displace_crops_top_left_witness :
  fst (randomly_displace_and_pad 0%Z (ramp 10 10) (5, 5)%Z true counting_world)
    = Ok (NdArray uint8 (5, 5) (take 5 <$> take 5 (rows (ramp 10 10)))).
Proof.
  assert (Hsmall : (5 < Z.of_nat (height (ramp 10 10))
                    \/ 5 < Z.of_nat (width (ramp 10 10)))%Z)
    by (left; reflexivity).
  assert (Hwf : wf (ramp 10 10))
    by (apply (bool_decide_unpack _); vm_compute; exact I).
  destruct (displace_crops_top_left 0%Z (ramp 10 10) 5 5 counting_world
              Hwf ltac:(lia) ltac:(lia) Hsmall)
    as (_ & _ & _ & _ & _ & Hinstance).
  apply Hinstance; reflexivity.
Defined.

(** C5, as amended, at the 100 by 100 ramp and the scale 0.5. *)
Lemma dpi_adjusting_shape_witness :
  exists out,
    @dpi_adjusting Z nearest_cv (ramp 100 100) (Finite (1 # 2)) = Ok out /\
    shape out = (50, 50).
Proof.
  destruct (@dpi_adjusting_shape Z nearest_cv (ramp 100 100) (1 # 2) 50 50)
    as (_ & _ & _ & _ & _ & out & Hout & _ & _ & Hshape);
    [change (0 < 100); lia | change (0 < 100); lia
    | vm_compute; repeat split; reflexivity | reflexivity
    | change (dpi_extent 100 (Finite (1 # 2)) = Ok 50%Z);
      vm_compute; reflexivity
    | change (dpi_extent 100 (Finite (1 # 2)) = Ok 50%Z);
      vm_compute; reflexivity |].
  exists out. split; [exact Hout |]. apply Hshape; reflexivity.
Defined.

(** C5, where it fails: on an empty image [cv.resize] raises, whatever
    the positive scale, and with a scale as large as [2^1023] the product
    with an extent of 100 is infinite, so that [math.ceil] raises. *)
Lemma dpi_adjusting_refuses :
  (binary64 (1 # 2) /\ (0 < 1 # 2)%Q /\
   shape (ramp 0 5) = (0, 5) /\
   forall cv : OpenCV Z,
     exists msg,
       @dpi_adjusting Z cv (ramp 0 5) (Finite (1 # 2))
       = Raise (CvError msg)) /\
  (binary64 (pow2 1023) /\ (0 < pow2 1023)%Q /\
   shape (ramp 100 100) = (100, 100) /\
   forall cv : OpenCV Z,
     @dpi_adjusting Z cv (ramp 100 100) (Finite (pow2 1023))
     = Raise (OverflowError "cannot convert float infinity to integer")).
Proof.
  split.
  - split; [vm_compute; repeat split; reflexivity |].
    split; [reflexivity |]. split; [reflexivity |]. intros cv.
    assert (Hh : dpi_extent (height (ramp 0 5)) (Finite (1 # 2)) = Ok 0%Z)
      by (vm_compute; reflexivity).
    assert (Hw : dpi_extent (width (ramp 0 5)) (Finite (1 # 2)) = Ok 3%Z)
      by (vm_compute; reflexivity).
    unfold dpi_adjusting. rewrite Hh, Hw. simpl.
    apply cv_resize_rejects. left. reflexivity.
  - split; [vm_compute; repeat split; reflexivity |].
    split; [reflexivity |]. split; [reflexivity |]. intros cv.
    apply dpi_adjusting_overflows.
    change (height (ramp 100 100)) with 100. vm_compute. reflexivity.
Qed.

(** C7 at the parse method "paragraph". *)
Lemma unknown_parse_method_witness :
  post_init (100, 200)%Z "paragraph" (literal (1 # 2), literal (1 # 4))
    default_scale default_random_scale_limit default_random_rotate_limit
  = Raise (ValueError "paragraph is not a valid parse method.").
Proof.
  destruct (unknown_parse_method (100, 200)%Z
              (literal (1 # 2), literal (1 # 4)) default_scale
              default_random_scale_limit default_random_rotate_limit
              "paragraph") as (_ & Hbuild & _);
    [discriminate | discriminate | discriminate |].
  apply (Hbuild 56 111)%Z. vm_compute. reflexivity.
Defined.

(** C10 at the 2 by 3 ramp and the frame (4, 5). *)
Lemma displace_write_in_bounds_witness :
  randomly_displace_and_pad 0%Z (ramp 2 3) (4, 5)%Z false counting_world
    = (Ok ramp_in_frame, drawn 2 counting_world) /\
  (Z.of_nat (height ramp_in_frame) = 4 /\
   Z.of_nat (width ramp_in_frame) = 5)%Z.
Proof.
  assert (Hrun : randomly_displace_and_pad 0%Z (ramp 2 3) (4, 5)%Z false
                   counting_world
                 = (Ok ramp_in_frame, drawn 2 counting_world))
    by reflexivity.
  split; [exact Hrun |].
  destruct (displace_write_in_bounds 0%Z (ramp 2 3) 4 5 false counting_world
              ramp_in_frame (drawn 2 counting_world) Hrun)
    as (img' & img_h & img_w & w1 & _ & _ & _ & _ & _ & Hshape).
  exact Hshape.
Defined.

(** C8, as amended, at the defaults, images of at most 100 by 200 and
    the factor 0.9: the frame is 56 by 111. *)
Lemma padded_frame_bound_witness :
  padded_size_of (Finite (1 # 2))
    (Finite (3602879701896397 # 36028797018963968)) (100, 200)%Z
    = Ok (56, 111)%Z /\
  frame_holds (Finite (1 # 2))
    (Finite (3602879701896397 # 36028797018963968)) (100, 200)%Z
    100 200 (Finite (8106479329266893 # 9007199254740992)).
Proof.
  assert (Hp : padded_size_of (Finite (1 # 2))
                 (Finite (3602879701896397 # 36028797018963968))
                 (100, 200)%Z = Ok (56, 111)%Z)
    by (vm_compute; reflexivity).
  split; [exact Hp |].
  apply (padded_frame_bound (1 # 2)
           (3602879701896397 # 36028797018963968) (100, 200)%Z
           (literal (1 # 2), literal (1 # 4)) 10 100 200
           (8106479329266893 # 9007199254740992) 56 111);
    [vm_compute; repeat split; reflexivity | discriminate | discriminate
    | discriminate | discriminate | vm_compute; discriminate
    | vm_compute; discriminate | exact Hp].
Defined.

(** The counterexample to C8 through the operators: the 17 by 17 ramp
    leaves DPI adjustment by 0.125 as a 3 by 3 image and random scaling by
    1.34375 as a 4 by 4 image, which the displacement stage of the pipeline
    crops to its 3 by 3 frame, with the warning. *)
Example oversized_image_is_cropped :
  exists adjusted scaled,
    @dpi_adjusting Z nearest_cv (ramp 17 17) (Finite (1 # 8)) = Ok adjusted /\
    shape adjusted = (3, 3) /\
    @SafeRandomScale_apply Z nearest_albumentations adjusted
      (Finite (43 # 32)) INTER_LINEAR = Ok scaled /\
    shape scaled = (4, 4) /\
    padded_size_of (Finite (1 # 8)) (Finite (3 # 8)) (17, 17)%Z
      = Ok (3, 3)%Z /\
    exists res w',
      call (H := nearest_cv) 0%Z
        (partial_randomly_displace_and_pad (3, 3)%Z true)
        scaled counting_world = (Ok res, w') /\
      shape res = (3, 3) /\
      stdout w' = [crop_warning].
Proof.
  do 2 eexists. split; [vm_compute; reflexivity |].
  split; [reflexivity |]. split; [vm_compute; reflexivity |].
  split; [reflexivity |]. split; [vm_compute; reflexivity |].
  do 2 eexists.
  split; [vm_compute; reflexivity |]. split; reflexivity.
Qed.

(** *** The boundary cases, run *)

(** Cropping disabled and a frame that is too small: the message of the
    [AssertionError]. *)
Example frame_too_small_message :
  fst (randomly_displace_and_pad 0%Z (ramp 2 3) (1, 2)%Z false counting_world)
  = Raise (AssertionError
             "Frame is smaller than the image: (1, 2) vs. (2, 3)").
Proof. reflexivity. Qed.

(** A frame with a negative extent is refused by [np.zeros], whether or
    not cropping is enabled. *)
Example negative_frame_is_refused :
  fst (randomly_displace_and_pad 0%Z (ramp 2 3) (-1, 2)%Z true counting_world)
  = Raise (ValueError "negative dimensions are not allowed").
Proof. reflexivity. Qed.

(** Every pair of offsets of the two ranges is drawn from some state of
    the random source. *)
Lemma every_offset_is_drawn (frame_h frame_w : Z) (img : ndarray Z)
    (pad_top pad_left : Z) :
  (0 <= pad_top <= frame_h - Z.of_nat (height img))%Z ->
  (0 <= pad_left <= frame_w - Z.of_nat (width img))%Z ->
  exists w : world,
    offset w 0 (frame_h - Z.of_nat (height img)) = pad_top /\
    offset w 1 (frame_w - Z.of_nat (width img)) = pad_left.
Proof.
  intros Ht Hl.
  exists (World (fun k => if k =? 0 then pad_top else pad_left) 0 []).
  unfold offset; simpl. rewrite !Z.mod_small by lia. lia.
Qed.

(** A scale that drives an extent to zero leaves the image as it is. *)
Example safe_scale_is_identity :
  @SafeRandomScale_apply Z nearest_albumentations (ramp 1 7)
    (literal (9 # 10)) INTER_LINEAR = Ok (ramp 1 7).
Proof. vm_compute. reflexivity. Qed.

(** The float nearest to one third is below it, but three times it is
    rounded to 1: the candidate extent of a 3 by 3 image is 1, and the
    image is scaled, to 1 by 1. *)
Example safe_scale_at_one_third :
  (3 * (6004799503160661 # 18014398509481984) < 1)%Q /\
  fmul (Finite 3) (literal (1 # 3)) = Finite 1 /\
  floor_extent 3 (literal (1 # 3)) = Ok 1%Z /\
  scale_extent 3 (literal (1 # 3)) = Ok 1%Z /\
  exists out,
    @SafeRandomScale_apply Z nearest_albumentations (ramp 3 3)
      (literal (1 # 3)) INTER_LINEAR = Ok out /\
    shape out = (1, 1).
Proof.
  split; [reflexivity |]. split; [vm_compute; reflexivity |].
  split; [vm_compute; reflexivity |]. split; [vm_compute; reflexivity |].
  eexists. split; [vm_compute; reflexivity | reflexivity].
Qed.

(* ===================================================================== *)
(** ** Further properties of [randomly_displace_and_pad] *)
(* ===================================================================== *)

Section DisplaceMore.
Context {px : Type} (zero : px).
Implicit Types img res : ndarray px.
Local Open Scope Z_scope.

(** [place] returns on every image whose extents the frame holds; the
    rows need not agree with the shape. *)
Lemma place_returns img frame_h frame_w w :
  Z.of_nat (height img) <= frame_h -> Z.of_nat (width img) <= frame_w ->
  exists res,
    place zero img (Z.of_nat (height img)) (Z.of_nat (width img))
      frame_h frame_w w = (Ok res, drawn 2 w) /\
    shape res = (Z.to_nat frame_h, Z.to_nat frame_w) /\
    dtype res = dtype img.
Proof.
  intros Hh Hw. rewrite place_run by lia.
  pose proof (offset_range w 0 (frame_h - Z.of_nat (height img)) ltac:(lia)).
  pose proof (offset_range w 1 (frame_w - Z.of_nat (width img)) ltac:(lia)).
  destruct (setitem_returns (canvas zero frame_h frame_w (dtype img)) img
              (offset w 0 (frame_h - Z.of_nat (height img)))
              (offset w 1 (frame_w - Z.of_nat (width img))))
    as (out & Hout & Hshape & Hdtype); try lia.
  - change (height (canvas zero frame_h frame_w (dtype img)))
      with (Z.to_nat frame_h). lia.
  - change (width (canvas zero frame_h frame_w (dtype img)))
      with (Z.to_nat frame_w). lia.
  - exists out. by rewrite Hout.
Qed.

(** An image of exactly the frame's size is placed at offset (0, 0) and
    fills the canvas. *)
Lemma place_exact img frame_h frame_w w :
  wf img ->
  Z.of_nat (height img) = frame_h -> Z.of_nat (width img) = frame_w ->
  place zero img (Z.of_nat (height img)) (Z.of_nat (width img))
    frame_h frame_w w = (Ok img, drawn 2 w).
Proof.
  intros Hwf Hh Hw.
  destruct (place_spec zero img frame_h frame_w w Hwf)
    as (res & pt & pl & Hplace & _ & _ & Hsize & _ & Hwfres & Hpt & Hpl
        & Hget & _); [lia | lia |].
  rewrite Hplace. f_equal. f_equal.
  assert (pt = 0) as -> by lia. assert (pl = 0) as -> by lia.
  transitivity (getitem res 0 (Z.of_nat (height res))
                          0 (Z.of_nat (width res))).
  - symmetry. by apply getitem_all.
  - etransitivity; [| exact Hget]. f_equal; lia.
Qed.

(** X2. A frame with a negative extent never yields an array. With
    cropping enabled the warning is printed first and [np.zeros] then
    raises [ValueError]; with cropping disabled the size check raises its
    [AssertionError] and nothing is printed. No random draw is made. *)
Theorem displace_negative_frame img frame_h frame_w crop w :
  frame_h < 0 \/ frame_w < 0 ->
  randomly_displace_and_pad zero img (frame_h, frame_w) crop w =
    if crop
    then (Raise (ValueError "negative dimensions are not allowed"),
          printed crop_warning w)
    else (Raise (frame_error frame_h frame_w
                   (Z.of_nat (height img)) (Z.of_nat (width img))), w).
Proof.
  intros Hneg.
  assert (Hsmall : frame_h < Z.of_nat (height img)
                   \/ frame_w < Z.of_nat (width img)) by lia.
  destruct crop; [| by apply displace_raises].
  rewrite displace_crops by done. unfold place, bind, lift, zeros.
  destruct (Z.ltb_spec frame_h 0), (Z.ltb_spec frame_w 0); simpl;
    try reflexivity; lia.
Qed.

(** X3. A call that returns has made exactly two draws from the random
    source and has printed the warning, once, exactly when the frame is
    smaller than the image in some dimension; it prints nothing
    otherwise. *)
Theorem displace_effects img frame_h frame_w crop w res w' :
  randomly_displace_and_pad zero img (frame_h, frame_w) crop w
    = (Ok res, w') ->
  entropy w' = entropy w /\
  cursor w' = (2 + cursor w)%nat /\
  stdout w' =
    stdout w ++
    (if decide (frame_h < Z.of_nat (height img)
                \/ frame_w < Z.of_nat (width img))
     then [crop_warning] else []).
Proof.
  intros Hrun. case_decide as Hsmall.
  - destruct crop; [| by rewrite displace_raises in Hrun].
    rewrite displace_crops in Hrun by done.
    destruct (place_returns_inv _ _ _ _ _ _ _ _ _ Hrun) as [Hfh Hfw].
    rewrite place_run in Hrun by lia. by injection Hrun as _ <-.
  - rewrite displace_fits in Hrun by lia.
    destruct (place_returns_inv _ _ _ _ _ _ _ _ _ Hrun) as [Hfh Hfw].
    rewrite place_run in Hrun by lia. injection Hrun as _ <-.
    simpl. by rewrite app_nil_r.
Qed.

(** X4. An image whose shape is the frame's is returned as it is: both
    ranges of offsets are [0 .. 0], nothing is padded and nothing is
    cropped or printed, whatever the flag. *)
Theorem displace_exact_frame img frame_h frame_w crop w :
  wf img ->
  Z.of_nat (height img) = frame_h -> Z.of_nat (width img) = frame_w ->
  randomly_displace_and_pad zero img (frame_h, frame_w) crop w
    = (Ok img, drawn 2 w).
Proof.
  intros Hwf Hh Hw. rewrite displace_fits by lia. by apply place_exact.
Qed.

(** X5. Applying the function to its own result with the same frame
    changes nothing: the second call returns the array it is given, for
    either flag and any state of the random source. *)
Theorem displace_idempotent img frame_h frame_w crop w res w' :
  wf img ->
  randomly_displace_and_pad zero img (frame_h, frame_w) crop w
    = (Ok res, w') ->
  forall crop' w2,
    randomly_displace_and_pad zero res (frame_h, frame_w) crop' w2
      = (Ok res, drawn 2 w2).
Proof.
  intros Hwf Hrun crop' w2.
  assert (Hres : wf res /\ Z.of_nat (height res) = frame_h
                 /\ Z.of_nat (width res) = frame_w).
  { destruct (decide (frame_h < Z.of_nat (height img)
                      \/ frame_w < Z.of_nat (width img))) as [Hsmall | Hfit].
    - destruct crop; [| by rewrite displace_raises in Hrun].
      rewrite displace_crops in Hrun by done.
      destruct (place_returns_inv _ _ _ _ _ _ _ _ _ Hrun) as [Hfh Hfw].
      destruct (cropped_extents img frame_h frame_w Hfh Hfw) as [Eh Ew].
      rewrite <- Eh, <- Ew in Hrun.
      destruct (place_spec zero (cropped img frame_h frame_w) frame_h frame_w
                  (printed crop_warning w) (cropped_wf _ _ _ Hwf))
        as (r & pt & pl & Hplace & _ & _ & Hsize & _ & Hwfres & _);
        [lia | lia |].
      rewrite Hplace in Hrun. injection Hrun as <- _. tauto.
    - rewrite displace_fits in Hrun by lia.
      destruct (place_spec zero img frame_h frame_w w Hwf)
        as (r & pt & pl & Hplace & _ & _ & Hsize & _ & Hwfres & _);
        [lia | lia |].
      rewrite Hplace in Hrun. injection Hrun as <- _. tauto. }
  destruct Hres as (Hwfres & Hh & Hw).
  rewrite displace_fits by lia. by apply place_exact.
Qed.

(** X6. Every placement of the two ranges is reached, the corners
    included: for offsets [pad_top] in [0 .. frame_h - img_h] and
    [pad_left] in [0 .. frame_w - img_w] there is a state of the random
    source from which the call returns the zero canvas with the image
    written at exactly these offsets. *)
Theorem displace_reaches_every_offset img frame_h frame_w crop
    (pad_top pad_left : Z) :
  wf img ->
  0 <= pad_top <= frame_h - Z.of_nat (height img) ->
  0 <= pad_left <= frame_w - Z.of_nat (width img) ->
  exists w res,
    randomly_displace_and_pad zero img (frame_h, frame_w) crop w
      = (Ok res, drawn 2 w) /\
    setitem (canvas zero frame_h frame_w (dtype img))
      pad_top (pad_top + Z.of_nat (height img))
      pad_left (pad_left + Z.of_nat (width img)) img = Ok res /\
    getitem res pad_top (pad_top + Z.of_nat (height img))
                pad_left (pad_left + Z.of_nat (width img)) = img.
Proof.
  intros Hwf Hpt Hpl.
  set (w := World (fun k => if (k =? 0)%nat then pad_top else pad_left)
              0%nat []).
  assert (Et : offset w 0 (frame_h - Z.of_nat (height img)) = pad_top)
    by (unfold offset, w; simpl; rewrite Z.mod_small; lia).
  assert (El : offset w 1 (frame_w - Z.of_nat (width img)) = pad_left)
    by (unfold offset, w; simpl; rewrite Z.mod_small; lia).
  assert (Hfits : window_fits (canvas zero frame_h frame_w (dtype img)) img
                    pad_top pad_left).
  { split; [apply wf_blank |]. split; [exact Hwf |].
    change (height (canvas zero frame_h frame_w (dtype img)))
      with (Z.to_nat frame_h).
    change (width (canvas zero frame_h frame_w (dtype img)))
      with (Z.to_nat frame_w).
    lia. }
  destruct (setitem (canvas zero frame_h frame_w (dtype img))
              pad_top (pad_top + Z.of_nat (height img))
              pad_left (pad_left + Z.of_nat (width img)) img)
    as [res | e] eqn:Eset; [| by rewrite setitem_fit in Eset].
  exists w, res. split; [| split; [done |]].
  - rewrite displace_fits by lia. rewrite place_run by lia.
    by rewrite Et, El, Eset.
  - rewrite (getitem_setitem _ _ _ _ Hfits _ Eset). by destruct img.
Qed.

End DisplaceMore.

(* ===================================================================== *)
(** ** Further properties of the scaling operators *)
(* ===================================================================== *)

Section ScalingMore.
Context {px : Type}.
Implicit Types img : ndarray px.
Local Open Scope Q_scope.

Lemma inject_Z_small n :
  (Z.abs n <= 2 ^ 53)%Z -> - pow2 1024 < inject_Z n /\ inject_Z n < pow2 1024.
Proof.
  intros Hn.
  assert (H1 : inject_Z (- 2 ^ 53) <= inject_Z n)
    by (rewrite <- Zle_Qle; lia).
  assert (H2 : inject_Z n <= inject_Z (2 ^ 53))
    by (rewrite <- Zle_Qle; lia).
  assert (H3 : inject_Z (2 ^ 53) < pow2 1024) by reflexivity.
  assert (H4 : - pow2 1024 < inject_Z (- 2 ^ 53)) by reflexivity.
  lra.
Qed.

(** The product of an extent below [2^53] and a scale between -1 and 1
    is finite, and is that of the extent itself. *)
Lemma small_product (n : nat) (s : Q) :
  (Z.of_nat n <= 2 ^ 53)%Z -> - (1) <= s -> s <= 1 ->
  exists x y,
    float_of_int (Z.of_nat n) = Ok (Finite x) /\
    fl (x * s) = Finite y /\
    y == rnd (inject_Z (Z.of_nat n) * s) /\
    - inject_Z (Z.of_nat n) <= y /\ y <= inject_Z (Z.of_nat n).
Proof.
  intros Hn Hs0 Hs1.
  destruct (float_of_int_exact (Z.of_nat n) ltac:(lia)) as (x & Hx & Ex).
  assert (Hn0 : 0 <= inject_Z (Z.of_nat n)) by (apply inject_Z_nonneg; lia).
  destruct (inject_Z_small (Z.of_nat n) ltac:(lia)) as [Hlo Hhi].
  pose proof (rnd_Z (Z.of_nat n) ltac:(lia)) as Hgrid.
  assert (Hup : rnd (x * s) <= inject_Z (Z.of_nat n)).
  { rewrite <- Hgrid. apply rnd_le. nra. }
  assert (Hdown : - inject_Z (Z.of_nat n) <= rnd (x * s)).
  { rewrite <- Hgrid, <- rnd_opp. apply rnd_le. nra. }
  exists x, (Qred (rnd (x * s))). split; [done |].
  split; [apply fl_in_range; lra |].
  rewrite Qred_correct. split; [| split; done].
  apply rnd_comp. by rewrite Ex.
Qed.

Lemma dpi_extent_shrinks (n : nat) (s : Q) :
  (Z.of_nat n <= 2 ^ 53)%Z -> 0 <= s -> s <= 1 ->
  exists c, dpi_extent n (Finite s) = Ok c /\ (0 <= c <= Z.of_nat n)%Z.
Proof.
  intros Hn Hs0 Hs1.
  destruct (small_product n s Hn ltac:(lra) Hs1)
    as (x & y & Hx & Hy & Ey & _ & Hup).
  exists (Qceiling y).
  split; [exact (extent_computed Qceiling _ _ _ _ Hx Hy) |].
  split; [| by apply ceiling_upper].
  apply ceiling_nonneg. rewrite Ey. apply rnd_nonneg.
  assert (0 <= inject_Z (Z.of_nat n)) by (apply inject_Z_nonneg; lia). nra.
Qed.

Lemma dpi_extent_grows (n : nat) (s : Q) (c : Z) :
  (Z.of_nat n <= 2 ^ 53)%Z -> 1 <= s ->
  dpi_extent n (Finite s) = Ok c -> (Z.of_nat n <= c)%Z.
Proof.
  intros Hn Hs Hc.
  rewrite (dpi_extent_small n s c Hn Hc). apply ceiling_lower.
  rewrite <- (rnd_Z (Z.of_nat n)) at 1 by lia. apply rnd_le.
  assert (0 <= inject_Z (Z.of_nat n)) by (apply inject_Z_nonneg; lia). nra.
Qed.

(** X7. On an image that is not empty and whose extents are below
    [2^53], DPI adjustment by a scale in (0, 1] asks [cv.resize] for a
    size that is not empty and no larger than the input in either
    dimension, and returns an image of that size; by a scale of at least
    1 it returns, if it does, an image that is no smaller. *)
Theorem dpi_adjusting_bounds `{OpenCV px} img (scale : Q) :
  (0 < height img)%nat -> (0 < width img)%nat ->
  (Z.of_nat (height img) <= 2 ^ 53)%Z ->
  (Z.of_nat (width img) <= 2 ^ 53)%Z ->
  binary64 scale -> 0 < scale ->
  (scale <= 1 ->
   exists new_h new_w out,
     (1 <= new_h <= Z.of_nat (height img))%Z /\
     (1 <= new_w <= Z.of_nat (width img))%Z /\
     dpi_adjusting img (Finite scale)
       = cv_resize img (new_w, new_h) INTER_LINEAR /\
     dpi_adjusting img (Finite scale) = Ok out /\
     Z.of_nat (height out) = new_h /\ Z.of_nat (width out) = new_w) /\
  (1 <= scale ->
   forall out,
     dpi_adjusting img (Finite scale) = Ok out ->
     (height img <= height out)%nat /\ (width img <= width out)%nat).
Proof.
  intros Hh Hw Hh53 Hw53 Hs Hs0. split.
  - intros Hs1.
    destruct (dpi_extent_shrinks (height img) scale Hh53 ltac:(lra) Hs1)
      as (new_h & Hnh & Hnh0 & Hnh1).
    destruct (dpi_extent_shrinks (width img) scale Hw53 ltac:(lra) Hs1)
      as (new_w & Hnw & Hnw0 & Hnw1).
    pose proof (dpi_extent_pos _ _ _ Hh Hs Hs0 Hnh) as Hnh2.
    pose proof (dpi_extent_pos _ _ _ Hw Hs Hs0 Hnw) as Hnw2.
    destruct (dpi_adjusting_returns img (Finite scale) new_h new_w
                Hh Hw Hnh2 Hnw2 Hnh Hnw)
      as (Hcall & out & Hout & _ & Hho & Hwo).
    exists new_h, new_w, out. repeat split; done.
  - intros Hs1 out Hout. unfold dpi_adjusting in Hout.
    destruct (dpi_extent (height img) (Finite scale)) as [new_h |] eqn:Hnh;
      [| done].
    destruct (dpi_extent (width img) (Finite scale)) as [new_w |] eqn:Hnw;
      [| done].
    simpl in Hout.
    pose proof (dpi_extent_grows _ _ _ Hh53 Hs1 Hnh).
    pose proof (dpi_extent_grows _ _ _ Hw53 Hs1 Hnw).
    pose proof (cv_resize_shape _ _ _ _ _ Hout) as Hshape.
    unfold height at 2, width at 2. rewrite Hshape. simpl. lia.
Qed.

(** The extent of line 65 for an extent below [2^53] and a scale
    between -1 and 1. *)
Lemma scale_extent_small (n : nat) (s : Q) :
  (Z.of_nat n <= 2 ^ 53)%Z -> - (1) <= s -> s <= 1 ->
  exists y, scale_extent n (Finite s) = Ok (trunc y) /\
            y == rnd (inject_Z (Z.of_nat n) * s).
Proof.
  intros Hn Hs0 Hs1.
  destruct (small_product n s Hn Hs0 Hs1) as (x & y & Hx & Hy & Ey & _).
  exists y. split; [exact (extent_computed trunc _ _ _ _ Hx Hy) | done].
Qed.

(** X8. What the guard of [SafeRandomScale.apply] makes of some scales,
    on an image whose extents are below [2^53]. A scale between -1 and
    1 leaves the image as it is when the scale is not positive (so the
    default [scale=0] of the signature), when the image is empty, and
    when the scale is below 1 and the image has a single row or a single
    column. A scale of at least 1 on an image that is not empty reaches
    [RandomScale.apply] whenever the two products are finite. *)
Theorem safe_scale_threshold `{Albumentations px} img (scale : Q)
    (ip : interpolation) :
  ((Z.of_nat (height img) <= 2 ^ 53)%Z ->
   (Z.of_nat (width img) <= 2 ^ 53)%Z ->
   - (1) <= scale -> scale <= 1 ->
   scale <= 0 \/ height img = 0%nat \/ width img = 0%nat \/
   (binary64 scale /\ scale < 1 /\
    (height img = 1%nat \/ width img = 1%nat)) ->
   SafeRandomScale_apply img (Finite scale) ip = Ok img) /\
  (1 <= scale -> (0 < height img)%nat -> (0 < width img)%nat ->
   forall new_height new_width,
     scale_extent (height img) (Finite scale) = Ok new_height ->
     scale_extent (width img) (Finite scale) = Ok new_width ->
     (1 <= new_height)%Z /\ (1 <= new_width)%Z /\
     SafeRandomScale_apply img (Finite scale) ip
     = RandomScale_apply img (Finite scale) ip).
Proof.
  split.
  - intros Hh53 Hw53 Hs0 Hs1 Hcase.
    destruct (scale_extent_small (height img) scale Hh53 Hs0 Hs1)
      as (yh & Hyh & Eyh).
    destruct (scale_extent_small (width img) scale Hw53 Hs0 Hs1)
      as (yw & Hyw & Eyw).
    unfold SafeRandomScale_apply. rewrite Hyh, Hyw. simpl.
    assert (Hh0 : 0 <= inject_Z (Z.of_nat (height img)))
      by (apply inject_Z_nonneg; lia).
    assert (Hw0 : 0 <= inject_Z (Z.of_nat (width img)))
      by (apply inject_Z_nonneg; lia).
    assert (Hlow : yh < 1 \/ yw < 1).
    { destruct Hcase as [Hneg | [Hz | [Hz | (Hs & Hlt & [Hone | Hone])]]].
      - left. rewrite Eyh.
        assert (rnd (inject_Z (Z.of_nat (height img)) * scale) <= rnd 0)
          by (apply rnd_le; nra).
        rewrite rnd_0 in *. lra.
      - left. rewrite Eyh, Hz. rewrite rnd_of_zero; [lra | simpl; ring].
      - right. rewrite Eyw, Hz. rewrite rnd_of_zero; [lra | simpl; ring].
      - left. rewrite Eyh, Hone. destruct Hs as [Hs _].
        assert (E : inject_Z (Z.of_nat 1) * scale == scale) by (simpl; ring).
        rewrite E, Hs. done.
      - right. rewrite Eyw, Hone. destruct Hs as [Hs _].
        assert (E : inject_Z (Z.of_nat 1) * scale == scale) by (simpl; ring).
        rewrite E, Hs. done. }
    destruct (Z.leb_spec (trunc yh) 0) as [| Hh]; [done |].
    destruct (Z.leb_spec (trunc yw) 0) as [| Hw]; [done |].
    exfalso. destruct Hlow as [Hlow | Hlow];
      apply trunc_nonpos_iff in Hlow; lia.
  - intros Hs1 Hh Hw new_height new_width Hnh Hnw.
    assert (Haxis : forall (n : nat) (c : Z),
               (0 < n)%nat -> scale_extent n (Finite scale) = Ok c ->
               (1 <= c)%Z).
    { intros n c Hn Hc.
      apply extent_finite in Hc as (x & y & _ & Ex & _ & Ey & ->).
      assert (H1 : 1 <= x).
      { rewrite Ex. rewrite <- (rnd_Z 1) by done. apply rnd_le.
        rewrite <- Zle_Qle. lia. }
      assert (H2 : 1 <= y).
      { rewrite Ey. rewrite <- (rnd_Z 1) by done. apply rnd_le.
        change (inject_Z 1) with 1. nra. }
      destruct (Z_le_gt_dec (trunc y) 0) as [Hle |]; [| lia].
      apply trunc_nonpos_iff in Hle. lra. }
    pose proof (Haxis _ _ Hh Hnh) as Hnh1.
    pose proof (Haxis _ _ Hw Hnw) as Hnw1.
    split; [done |]. split; [done |].
    unfold SafeRandomScale_apply. rewrite Hnh, Hnw. simpl.
    destruct (Z.leb_spec new_height 0); [lia |].
    destruct (Z.leb_spec new_width 0); [lia |]. done.
Qed.

End ScalingMore.

(* ===================================================================== *)
(** ** Further properties of the pipelines *)
(* ===================================================================== *)

Section PipelinesMore.
Variables (max_img_size : Z * Z) (normalize_params : float * float).
Variables (scale random_scale_limit : float) (random_rotate_limit : Z).

Let build (parse_method : string) : outcome IAMImageTransforms :=
  post_init max_img_size parse_method normalize_params scale
    random_scale_limit random_rotate_limit.

(** Construction returns for the three parse methods only, and with the
    pipelines of lines 106-181. *)
Lemma build_returns_inv (parse_method : string) (t : IAMImageTransforms) :
  build parse_method = Ok t ->
  (parse_method = "word" \/ parse_method = "line" \/ parse_method = "form")
  /\ exists padded_h padded_w,
       build_pipelines max_img_size parse_method normalize_params scale
         random_scale_limit random_rotate_limit padded_h padded_w = Ok t.
Proof.
  intros Hb. unfold build, post_init in Hb.
  destruct (padded_size_of scale random_scale_limit max_img_size)
    as [[padded_h padded_w] |]; [| done].
  simpl in Hb. split; [| by exists padded_h, padded_w].
  unfold build_pipelines in Hb.
  destruct (String.eqb_spec parse_method "word"); [by left |].
  destruct (String.eqb_spec parse_method "line"); [by right; left |].
  destruct (String.eqb_spec parse_method "form"); [by right; right |].
  discriminate.
Qed.

(** X9. In every object that is constructed, whatever the parse method,
    the train and the test pipeline both start with DPI adjustment by the
    same [scale], and both normalise with the same mean and deviation. *)
Theorem pipelines_share_dpi_and_normalize (parse_method : string)
    (t : IAMImageTransforms) :
  build parse_method = Ok t ->
  head (stages (train_trnsf t)) = Some (Lambda (partial_dpi_adjusting scale))
  /\ head (stages (test_trnsf t)) = Some (Lambda (partial_dpi_adjusting scale))
  /\ Normalize (fst normalize_params) (snd normalize_params)
       ∈ stages (train_trnsf t)
  /\ Normalize (fst normalize_params) (snd normalize_params)
       ∈ stages (test_trnsf t).
Proof.
  intros Hb.
  destruct (build_returns_inv _ _ Hb)
    as [[-> | [-> | ->]] (padded_h & padded_w & Hp)];
    injection Hp as <-; simpl;
    (split; [done |]); (split; [done |]); split;
    repeat (first [apply list_elem_of_here | apply list_elem_of_further]).
Qed.

(** X10. The test pipeline of every object that is constructed is made of
    DPI adjustment, normalisation and, for "form" only, padding to
    [max_img_size]: no stage of it scales, rotates, distorts or displaces
    at random. *)
Theorem test_pipeline_stages (parse_method : string)
    (t : IAMImageTransforms) :
  build parse_method = Ok t ->
  Forall (fun stage =>
            stage = Lambda (partial_dpi_adjusting scale) \/
            stage = Normalize (fst normalize_params) (snd normalize_params) \/
            stage = PadIfNeeded (fst max_img_size) (snd max_img_size)
                      BORDER_CONSTANT 0)
    (stages (test_trnsf t)) /\
  (PadIfNeeded (fst max_img_size) (snd max_img_size) BORDER_CONSTANT 0
     ∈ stages (test_trnsf t) <-> parse_method = "form").
Proof.
  intros Hb.
  destruct (build_returns_inv _ _ Hb)
    as [[-> | [-> | ->]] (padded_h & padded_w & Hp)];
    injection Hp as <-; simpl; split;
    try (repeat constructor; tauto).
  - split; [| discriminate]. intros Hin.
    rewrite !elem_of_cons, elem_of_nil in Hin.
    by destruct Hin as [Hin | [Hin | []]].
  - split; [| discriminate]. intros Hin.
    rewrite !elem_of_cons, elem_of_nil in Hin.
    by destruct Hin as [Hin | [Hin | []]].
Qed.

End PipelinesMore.

(* ===================================================================== *)
(** ** Further properties of the frames of the "form" pipelines *)
(* ===================================================================== *)

Section FramesMore.
Context {px : Type} (zero : px).
Implicit Types img : ndarray px.
Local Open Scope Q_scope.

Lemma padded_extent_nonneg (s l : Q) (m : Z) (extent : float) (p : Z) :
  0 <= s -> 0 <= l -> (0 <= m)%Z ->
  float_of_int m = Ok extent ->
  ceil (fmul (max_scale (Finite s) (Finite l)) extent) = Ok p ->
  (0 <= p)%Z.
Proof.
  intros Hs Hl Hm Hext Hp.
  destruct (padded_extent_finite s l m extent p Hext Hp)
    as (r & ms & x & y & _ & Er & _ & Ems & _ & _ & Ex & _ & Ey & ->).
  assert (Hr : 0 <= r) by (rewrite Er; apply rnd_nonneg; nra).
  assert (Hms : 0 <= ms) by (rewrite Ems; apply rnd_nonneg; lra).
  assert (Hx : 0 <= x)
    by (rewrite Ex; apply rnd_nonneg, inject_Z_nonneg; done).
  apply ceiling_nonneg. rewrite Ey. apply rnd_nonneg. nra.
Qed.

(** X11. The displacement stage of the "form" train pipeline never
    raises: for a scale and a limit that are not negative and a
    [max_img_size] without negative extent, the frame that lines 100-104
    compute has no negative extent, and the stage returns, on every image
    and from every state of the random source, an array of exactly the
    shape of that frame. *)
Theorem form_displacement_never_raises `{OpenCV px} (scale limit : Q)
    (max_img_size : Z * Z) (padded_h padded_w : Z) img (w : world) :
  0 <= scale -> 0 <= limit ->
  (0 <= fst max_img_size)%Z -> (0 <= snd max_img_size)%Z ->
  padded_size_of (Finite scale) (Finite limit) max_img_size
    = Ok (padded_h, padded_w) ->
  (0 <= padded_h)%Z /\ (0 <= padded_w)%Z /\
  exists res w',
    call zero (partial_randomly_displace_and_pad (padded_h, padded_w) true)
      img w = (Ok res, w') /\
    shape res = (Z.to_nat padded_h, Z.to_nat padded_w).
Proof.
  intros Hs Hl Hh Hw Hp.
  destruct (padded_size_inv _ _ _ _ _ Hp)
    as [(eh & Heh & Hceh) (ew & Hew & Hcew)].
  pose proof (padded_extent_nonneg _ _ _ _ _ Hs Hl Hh Heh Hceh) as Hph.
  pose proof (padded_extent_nonneg _ _ _ _ _ Hs Hl Hw Hew Hcew) as Hpw.
  split; [done |]. split; [done |]. simpl.
  destruct (decide ((padded_h < Z.of_nat (height img)
                     \/ padded_w < Z.of_nat (width img))%Z))
    as [Hsmall | Hfit].
  - rewrite displace_crops by done.
    destruct (cropped_extents img padded_h padded_w Hph Hpw) as [Eh Ew].
    rewrite <- Eh, <- Ew.
    destruct (place_returns zero (cropped img padded_h padded_w)
                padded_h padded_w (printed crop_warning w))
      as (res & Hrun & Hshape & _); [lia | lia |].
    by exists res, (drawn 2 (printed crop_warning w)).
  - rewrite displace_fits by lia.
    destruct (place_returns zero img padded_h padded_w w)
      as (res & Hrun & Hshape & _); [lia | lia |].
    by exists res, (drawn 2 w).
Qed.

End FramesMore.

Section TestFrame.
Variables (max_img_size : Z * Z) (normalize_params : float * float).
Variables (random_scale_limit : float) (random_rotate_limit : Z).
Local Open Scope Q_scope.

(** X13. The padding target of the "form" test pipeline, its last stage,
    is [max_img_size], and for a scale in [0, 1] and a [max_img_size]
    below [2^53] it is never smaller than an image no larger than
    [max_img_size] is after DPI adjustment. *)
Theorem form_test_pad_target (scale : Q) (h w : nat) :
  0 <= scale -> scale <= 1 ->
  (Z.of_nat h <= fst max_img_size)%Z -> (fst max_img_size <= 2 ^ 53)%Z ->
  (Z.of_nat w <= snd max_img_size)%Z -> (snd max_img_size <= 2 ^ 53)%Z ->
  (forall t,
      post_init max_img_size "form" normalize_params (Finite scale)
        random_scale_limit random_rotate_limit = Ok t ->
      last (stages (test_trnsf t))
        = Some (PadIfNeeded (fst max_img_size) (snd max_img_size)
                  BORDER_CONSTANT 0)) /\
  exists dpi_h dpi_w,
    dpi_extent h (Finite scale) = Ok dpi_h /\
    dpi_extent w (Finite scale) = Ok dpi_w /\
    (0 <= dpi_h <= fst max_img_size)%Z /\
    (0 <= dpi_w <= snd max_img_size)%Z.
Proof.
  intros Hs0 Hs1 Hh Hh53 Hw Hw53. split.
  - intros t Ht.
    destruct (build_returns_inv _ _ _ _ _ _ _ Ht)
      as [_ (padded_h & padded_w & Hp)].
    by injection Hp as <-.
  - destruct (dpi_extent_shrinks h scale ltac:(lia) Hs0 Hs1)
      as (dpi_h & Hdh & Hdh0).
    destruct (dpi_extent_shrinks w scale ltac:(lia) Hs0 Hs1)
      as (dpi_w & Hdw & Hdw0).
    exists dpi_h, dpi_w. repeat split; try done; lia.
Qed.

End TestFrame.

(* ===================================================================== *)
(** ** The frame at the defaults of the dataclass *)
(* ===================================================================== *)

Section DefaultFrame.
Context {px : Type} (zero : px).
Implicit Types img : ndarray px.
Local Open Scope Q_scope.

(** Rounding to an integer moves a value by at most one half, and
    rounding to binary64 a value below [2^k] by at most [2^(k - 54)]. *)
Lemma rint_error x :
  - (1 # 2) <= inject_Z (rint x) - x /\ inject_Z (rint x) - x <= 1 # 2.
Proof.
  pose proof (Qfloor_le x) as H1. pose proof (Qlt_floor x) as H2.
  rewrite inject_Z_plus in H2. change (inject_Z 1) with 1 in H2.
  unfold rint.
  destruct (Qcompare_spec (x - inject_Z (Qfloor x)) (1 # 2));
    [destruct (Z.even (Qfloor x)) | |];
    rewrite ?inject_Z_plus; change (inject_Z 1) with 1; lra.
Qed.

Lemma rnd_error z k :
  0 < z -> z < pow2 k -> (-1021 <= k)%Z ->
  - pow2 (k - 54) <= rnd z - z /\ rnd z - z <= pow2 (k - 54).
Proof.
  intros Hz Hzk Hk. rewrite rnd_of_pos by done. unfold rnd_pos.
  set (E := fexp (ilog2 z)).
  assert (HE : (E <= k - 53)%Z).
  { destruct (ilog2_spec z Hz) as [HL _].
    assert (Hlt : pow2 (ilog2 z) < pow2 k) by lra.
    apply pow2_lt_inv in Hlt. unfold E, fexp. lia. }
  pose proof (pow2_pos E) as HpE.
  assert (Hhalf : pow2 E <= 2 * pow2 (k - 54)).
  { assert (H : pow2 E <= pow2 (k - 53)) by (apply pow2_le; lia).
    pose proof (pow2_add 1 (k - 54)) as Hs.
    replace (1 + (k - 54))%Z with (k - 53)%Z in Hs by lia.
    change (pow2 1) with 2 in Hs. lra. }
  destruct (rint_error (z / pow2 E)) as [H1 H2].
  assert (Ez : z == z / pow2 E * pow2 E) by (field; lra).
  set (q := z / pow2 E) in *. clearbody q.
  set (r := inject_Z (rint q)) in *. clearbody r.
  rewrite Ez. split; nra.
Qed.

(** The defaults, as floats. *)
Lemma default_values :
  default_scale = Finite (1 # 2) /\
  max_scale default_scale default_random_scale_limit
    = Finite (2476979795053773 # 4503599627370496) /\
  fadd (Finite 1) default_random_scale_limit
    = Finite (2476979795053773 # 2251799813685248).
Proof. repeat split; vm_compute; reflexivity. Qed.

(** Halving an extent below [2^53] is exact. *)
Lemma dpi_extent_half (n : nat) :
  (Z.of_nat n <= 2 ^ 53)%Z ->
  exists c, dpi_extent n (Finite (1 # 2)) = Ok c /\
            c = Qceiling (inject_Z (Z.of_nat n) * (1 # 2)) /\
            (0 <= c)%Z /\ (c <= Z.of_nat n)%Z /\ (2 * c <= Z.of_nat n + 1)%Z.
Proof.
  intros Hn.
  destruct (dpi_extent_shrinks n (1 # 2) Hn ltac:(lra) ltac:(lra))
    as (c & Hc & Hc0 & Hcn).
  exists c. split; [done |].
  assert (Ec : c = Qceiling (inject_Z (Z.of_nat n) * (1 # 2))).
  { rewrite (dpi_extent_small n _ c Hn Hc). apply Qceiling_comp.
    exact (rnd_grid (Z.of_nat n) (-1) ltac:(lia) ltac:(lia)). }
  split; [done |]. split; [done |]. split; [done |].
  pose proof (Qceiling_lt (inject_Z (Z.of_nat n) * (1 # 2))) as Hlt.
  rewrite <- Ec in Hlt.
  assert (Hz : (2 * (c - 1) < Z.of_nat n)%Z).
  { rewrite Zlt_Qlt, inject_Z_mult. change (inject_Z 2) with 2. lra. }
  lia.
Qed.

(** One axis at the defaults: an image extent [n] of at most [m], the
    largest extent, itself at most [2^50]. The extent [p] of the frame
    holds the extent [c] after DPI adjustment and the extent [e] after
    scaling by a factor of at most 1.1, the float [1 + 0.1]. *)
Lemma default_axis (f : Q) (n : nat) (m : Z) :
  0 <= f -> f <= 2476979795053773 # 2251799813685248 ->
  (Z.of_nat n <= m)%Z -> (m <= 2 ^ 50)%Z ->
  exists extent p c e,
    float_of_int m = Ok extent /\
    ceil (fmul (max_scale default_scale default_random_scale_limit) extent)
      = Ok p /\
    dpi_extent n default_scale = Ok c /\
    scale_extent (Z.to_nat c) (Finite f) = Ok e /\
    (0 <= c)%Z /\ (c <= p)%Z /\ (0 <= e)%Z /\ (e <= p)%Z.
Proof.
  intros Hf0 Hf1 Hnm Hm.
  destruct default_values as (-> & -> & _).
  set (m0 := 2476979795053773 # 4503599627370496).
  set (F := 2476979795053773 # 2251799813685248) in *.
  assert (EF : F == 2 * m0) by reflexivity.
  assert (Hm0 : 1 # 2 <= m0 /\ m0 <= 11 # 16) by (split; discriminate).
  (* the extent of the frame *)
  destruct (float_of_int_exact m ltac:(lia)) as (x & Hx & Ex).
  assert (Hxm : 0 <= inject_Z m) by (apply inject_Z_nonneg; lia).
  assert (Hm50 : inject_Z m <= inject_Z (2 ^ 50)) by (rewrite <- Zle_Qle; lia).
  assert (H50 : inject_Z (2 ^ 50) < pow2 1024) by reflexivity.
  assert (HY0 : 0 <= rnd (m0 * x)) by (apply rnd_nonneg; nra).
  assert (HY1 : rnd (m0 * x) <= inject_Z m).
  { rewrite <- (rnd_Z m) by lia. apply rnd_le. nra. }
  assert (HY : fl (m0 * x) = Finite (Qred (rnd (m0 * x))))
    by (apply fl_in_range; lra).
  set (Y := Qred (rnd (m0 * x))) in *.
  assert (EY : Y == rnd (m0 * x)) by apply Qred_correct.
  (* after DPI adjustment *)
  destruct (dpi_extent_half n ltac:(lia)) as (c & Hc & Ec & Hc0 & Hcn & Hc2).
  assert (Hn0 : 0 <= inject_Z (Z.of_nat n)) by (apply inject_Z_nonneg; lia).
  assert (Hnm' : inject_Z (Z.of_nat n) <= inject_Z m)
    by (by rewrite <- Zle_Qle).
  assert (HcY : (c <= Qceiling Y)%Z).
  { rewrite Ec. apply Qceiling_resp_le. rewrite EY.
    rewrite <- (rnd_grid (Z.of_nat n) (-1)) by lia. apply rnd_le.
    change (pow2 (-1)) with (1 # 2). nra. }
  (* after scaling *)
  destruct (float_of_int_exact c ltac:(lia)) as (xc & Hxc & Exc).
  assert (Hc0' : 0 <= inject_Z c) by by apply inject_Z_nonneg.
  assert (Hc50 : inject_Z c <= inject_Z (2 ^ 50)) by (rewrite <- Zle_Qle; lia).
  assert (HF : F <= 2) by discriminate.
  assert (Hz0 : 0 <= rnd (xc * f)) by (apply rnd_nonneg; nra).
  assert (Hz1 : rnd (xc * f) <= rnd (inject_Z c * F))
    by (apply rnd_le; nra).
  assert (Hz2 : rnd (inject_Z c * F) <= inject_Z (2 ^ 51)).
  { rewrite <- (rnd_Z (2 ^ 51)) by done. apply rnd_le.
    change (inject_Z (2 ^ 51)) with (inject_Z (2 ^ 50) * 2). nra. }
  assert (H51 : inject_Z (2 ^ 51) < pow2 1024) by reflexivity.
  assert (Hz : fl (xc * f) = Finite (Qred (rnd (xc * f))))
    by (apply fl_in_range; lra).
  set (z := Qred (rnd (xc * f))) in *.
  assert (Ez : z == rnd (xc * f)) by apply Qred_correct.
  exists (Finite x), (Qceiling Y), c, (trunc z).
  split; [done |].
  split; [simpl; by rewrite HY |].
  split; [done |].
  split.
  { rewrite <- (Z2Nat.id c Hc0) in Hxc.
    exact (extent_computed trunc _ _ _ _ Hxc Hz). }
  split; [done |]. split; [done |].
  rewrite trunc_nonneg by lra. split; [apply floor_nonneg; lra |].
  destruct (Z.eq_dec c 0%Z) as [-> | Hcpos].
  - assert (E0 : z == 0).
    { rewrite Ez. rewrite rnd_of_zero; [reflexivity |]. rewrite Exc. ring. }
    rewrite (Qfloor_comp _ _ E0). change (Qfloor 0) with 0%Z.
    apply ceiling_nonneg. lra.
  - destruct (Z_le_gt_dec (Qfloor z) (Qceiling Y)) as [| Hgt]; [done |].
    exfalso.
    assert (Hc1 : 1 <= inject_Z c)
      by (change 1 with (inject_Z 1); rewrite <- Zle_Qle; lia).
    assert (Hn1 : 1 <= inject_Z m).
    { change 1 with (inject_Z 1). rewrite <- Zle_Qle. lia. }
    assert (Hup : rnd (inject_Z c * F) - inject_Z c * F <= pow2 (51 - 54)).
    { apply rnd_error; [nra | | lia].
      change (pow2 51) with (inject_Z (2 ^ 50) * 2). nra. }
    assert (Hdown : - pow2 (51 - 54) <= rnd (m0 * x) - m0 * x).
    { apply rnd_error; [nra | | lia].
      change (pow2 51) with (inject_Z (2 ^ 50) * 2). nra. }
    change (pow2 (51 - 54)) with (1 # 8) in *.
    assert (Hc2' : 2 * inject_Z c <= inject_Z (Z.of_nat n) + 1).
    { change 2 with (inject_Z 2). change 1 with (inject_Z 1).
      rewrite <- inject_Z_mult, <- inject_Z_plus, <- Zle_Qle. lia. }
    pose proof (Qfloor_le z) as Hfl. pose proof (Qle_ceiling Y) as Hce.
    assert (Hgap : inject_Z (Qceiling Y) + 1 <= inject_Z (Qfloor z)).
    { change 1 with (inject_Z 1).
      rewrite <- inject_Z_plus, <- Zle_Qle. lia. }
    assert (HcF : inject_Z c * F <= m0 * (inject_Z m + 1)) by nra.
    assert (Hx' : m0 * x == m0 * inject_Z m) by (by rewrite Ex).
    lra.
Qed.

(** X12. With the defaults of the dataclass, scale 0.5 and limit 0.1,
    and a [max_img_size] of at most [2^50] per axis, the frame of the
    "form" train pipeline is computed and its displacement stage never
    crops: an image no larger than [max_img_size], after DPI adjustment
    and whether or not it was then scaled by a factor between 0 and 1.1,
    the float [1 + 0.1], is placed in the frame as it is, and no warning
    is printed. *)
Theorem default_form_never_crops (max_img_size : Z * Z) (h w : nat) (f : Q)
    img (wd : world) :
  0 <= f -> f <= 2476979795053773 # 2251799813685248 ->
  (Z.of_nat h <= fst max_img_size)%Z -> (fst max_img_size <= 2 ^ 50)%Z ->
  (Z.of_nat w <= snd max_img_size)%Z -> (snd max_img_size <= 2 ^ 50)%Z ->
  (dpi_extent h default_scale = Ok (Z.of_nat (height img)) \/
   exists dpi_h,
     dpi_extent h default_scale = Ok dpi_h /\
     scale_extent (Z.to_nat dpi_h) (Finite f)
       = Ok (Z.of_nat (height img))) ->
  (dpi_extent w default_scale = Ok (Z.of_nat (width img)) \/
   exists dpi_w,
     dpi_extent w default_scale = Ok dpi_w /\
     scale_extent (Z.to_nat dpi_w) (Finite f)
       = Ok (Z.of_nat (width img))) ->
  exists padded_h padded_w res,
    padded_size_of default_scale default_random_scale_limit max_img_size
      = Ok (padded_h, padded_w) /\
    (Z.of_nat (height img) <= padded_h)%Z /\
    (Z.of_nat (width img) <= padded_w)%Z /\
    randomly_displace_and_pad zero img (padded_h, padded_w) true wd
      = (Ok res, drawn 2 wd) /\
    stdout (drawn 2 wd) = stdout wd /\
    shape res = (Z.to_nat padded_h, Z.to_nat padded_w).
Proof.
  intros Hf0 Hf1 Hh Hh50 Hw Hw50 Hih Hiw.
  destruct (default_axis f h (fst max_img_size) Hf0 Hf1 Hh Hh50)
    as (eh & ph & ch & nh & Heh & Hph & Hch & Hnh & _ & Hchp & _ & Hnhp).
  destruct (default_axis f w (snd max_img_size) Hf0 Hf1 Hw Hw50)
    as (ew & pw & cw & nw & Hew & Hpw & Hcw & Hnw & _ & Hcwp & _ & Hnwp).
  pose proof (padded_size_intro _ _ _ _ _ _ _ Heh Hph Hew Hpw) as Hp.
  assert (Hfith : (Z.of_nat (height img) <= ph)%Z).
  { destruct Hih as [Hd | (d & Hd & Hs)].
    - rewrite Hch in Hd. injection Hd as <-. done.
    - rewrite Hch in Hd. injection Hd as <-. rewrite Hnh in Hs.
      injection Hs as <-. done. }
  assert (Hfitw : (Z.of_nat (width img) <= pw)%Z).
  { destruct Hiw as [Hd | (d & Hd & Hs)].
    - rewrite Hcw in Hd. injection Hd as <-. done.
    - rewrite Hcw in Hd. injection Hd as <-. rewrite Hnw in Hs.
      injection Hs as <-. done. }
  exists ph, pw.
  destruct (place_returns zero img ph pw wd Hfith Hfitw)
    as (res & Hrun & Hshape & _).
  exists res. split; [exact Hp |]. split; [exact Hfith |].
  split; [exact Hfitw |]. rewrite displace_fits by (simpl; lia).
  split; [exact Hrun |]. split; [reflexivity | exact Hshape].
Qed.

End DefaultFrame.

(* ===================================================================== *)
(** ** The further properties at the reference inputs *)
(* ===================================================================== *)

(** X2 at the 2 by 3 ramp and the frame (-1, 2). *)
Lemma displace_negative_frame_witness :
  randomly_displace_and_pad 0%Z (ramp 2 3) (-1, 2)%Z true counting_world
  = (Raise (ValueError "negative dimensions are not allowed"),
     printed crop_warning counting_world).
Proof.
  apply (displace_negative_frame 0%Z (ramp 2 3) (-1) 2 true counting_world).
  left. reflexivity.
Defined.

(** X3 at the 2 by 3 ramp and the frame (4, 5). *)
Lemma displace_effects_witness :
  cursor (drawn 2 counting_world) = (2 + cursor counting_world)%nat /\
  stdout (drawn 2 counting_world) = stdout counting_world ++ [].
Proof.
  assert (Hrun : randomly_displace_and_pad 0%Z (ramp 2 3) (4, 5)%Z false
                   counting_world
                 = (Ok ramp_in_frame, drawn 2 counting_world))
    by reflexivity.
  destruct (displace_effects 0%Z (ramp 2 3) 4 5 false counting_world
              ramp_in_frame (drawn 2 counting_world) Hrun)
    as (_ & Hcursor & Hout).
  split; [exact Hcursor | exact Hout].
Defined.

(** X4 at the 4 by 5 array above and its own frame. *)
Lemma displace_exact_frame_witness :
  randomly_displace_and_pad 0%Z ramp_in_frame (4, 5)%Z false counting_world
  = (Ok ramp_in_frame, drawn 2 counting_world).
Proof.
  apply (displace_exact_frame 0%Z ramp_in_frame 4 5 false counting_world);
    [apply (bool_decide_unpack _); vm_compute; exact I
    | reflexivity | reflexivity].
Defined.

(** X5 at the 2 by 3 ramp and the frame (4, 5). *)
Lemma displace_idempotent_witness :
  randomly_displace_and_pad 0%Z ramp_in_frame (4, 5)%Z true
    (drawn 2 counting_world)
  = (Ok ramp_in_frame, drawn 2 (drawn 2 counting_world)).
Proof.
  assert (Hwf : wf (ramp 2 3))
    by (apply (bool_decide_unpack _); vm_compute; exact I).
  assert (Hrun : randomly_displace_and_pad 0%Z (ramp 2 3) (4, 5)%Z false
                   counting_world
                 = (Ok ramp_in_frame, drawn 2 counting_world))
    by reflexivity.
  apply (displace_idempotent 0%Z (ramp 2 3) 4 5 false counting_world
           ramp_in_frame (drawn 2 counting_world) Hwf Hrun).
Defined.

(** X6 at the 2 by 3 ramp, the frame (4, 5) and the bottom right
    corner. *)
Lemma displace_reaches_every_offset_witness :
  exists w res,
    randomly_displace_and_pad 0%Z (ramp 2 3) (4, 5)%Z false w
      = (Ok res, drawn 2 w) /\
    setitem (canvas 0%Z 4 5 (dtype (ramp 2 3)))
      2 (2 + Z.of_nat (height (ramp 2 3)))
      2 (2 + Z.of_nat (width (ramp 2 3))) (ramp 2 3) = Ok res /\
    getitem res 2 (2 + Z.of_nat (height (ramp 2 3)))
                2 (2 + Z.of_nat (width (ramp 2 3))) = ramp 2 3.
Proof.
  apply (displace_reaches_every_offset 0%Z (ramp 2 3) 4 5 false 2 2);
    [apply (bool_decide_unpack _); vm_compute; exact I
    | vm_compute; split; discriminate
    | vm_compute; split; discriminate].
Defined.

(** X7 at the 100 by 60 ramp and the scale 0.5. *)
Lemma dpi_adjusting_bounds_witness :
  exists new_h new_w out,
    (1 <= new_h <= 100)%Z /\ (1 <= new_w <= 60)%Z /\
    @dpi_adjusting Z nearest_cv (ramp 100 60) (Finite (1 # 2)) = Ok out /\
    Z.of_nat (height out) = new_h /\ Z.of_nat (width out) = new_w.
Proof.
  destruct (@dpi_adjusting_bounds Z nearest_cv (ramp 100 60) (1 # 2))
    as [Hsmall _];
    [change (0 < 100); lia | change (0 < 60); lia
    | change (Z.of_nat 100 <= 2 ^ 53)%Z; lia
    | change (Z.of_nat 60 <= 2 ^ 53)%Z; lia
    | vm_compute; repeat split; reflexivity | reflexivity |].
  destruct (Hsmall ltac:(discriminate))
    as (new_h & new_w & out & Hnh & Hnw & _ & Hout & Hho & Hwo).
  exists new_h, new_w, out.
  split; [exact Hnh |]. split; [exact Hnw |]. split; [exact Hout |].
  split; [exact Hho | exact Hwo].
Defined.

(** X9 at the parse method "line". *)
Lemma pipelines_share_dpi_and_normalize_witness :
  exists t,
    post_init (100, 200)%Z "line" (literal (1 # 2), literal (1 # 4))
      default_scale default_random_scale_limit default_random_rotate_limit
      = Ok t /\
    head (stages (train_trnsf t)) = head (stages (test_trnsf t)).
Proof.
  assert (Hp : padded_size_of default_scale default_random_scale_limit
                 (100, 200)%Z = Ok (56, 111)%Z)
    by (vm_compute; reflexivity).
  pose proof (post_init_frame (100, 200)%Z
                (literal (1 # 2), literal (1 # 4)) default_scale
                default_random_scale_limit default_random_rotate_limit
                56 111 "line" Hp) as Hb.
  eexists. split; [exact Hb |].
  destruct (pipelines_share_dpi_and_normalize (100, 200)%Z
              (literal (1 # 2), literal (1 # 4))
              default_scale default_random_scale_limit
              default_random_rotate_limit "line" _ Hb)
    as (Htrain & Htest & _).
  rewrite Htest. exact Htrain.
Defined.

(** X10 at the parse method "form". *)
Lemma test_pipeline_stages_witness :
  exists t,
    post_init (100, 200)%Z "form" (literal (1 # 2), literal (1 # 4))
      default_scale default_random_scale_limit default_random_rotate_limit
      = Ok t /\
    PadIfNeeded 100 200 BORDER_CONSTANT 0 ∈ stages (test_trnsf t).
Proof.
  assert (Hp : padded_size_of default_scale default_random_scale_limit
                 (100, 200)%Z = Ok (56, 111)%Z)
    by (vm_compute; reflexivity).
  pose proof (post_init_frame (100, 200)%Z
                (literal (1 # 2), literal (1 # 4)) default_scale
                default_random_scale_limit default_random_rotate_limit
                56 111 "form" Hp) as Hb.
  eexists. split; [exact Hb |].
  destruct (test_pipeline_stages (100, 200)%Z
              (literal (1 # 2), literal (1 # 4))
              default_scale default_random_scale_limit
              default_random_rotate_limit "form" _ Hb)
    as (_ & Hpad).
  apply Hpad. reflexivity.
Defined.

(** X11 at the defaults, images of at most 100 by 200 and the 70 by 40
    ramp: the frame is 56 by 111. *)
Lemma form_displacement_never_raises_witness :
  exists res w',
    call (H := nearest_cv) 0%Z
      (partial_randomly_displace_and_pad (56, 111)%Z true)
      (ramp 70 40) counting_world = (Ok res, w') /\
    shape res = (56, 111).
Proof.
  destruct (@form_displacement_never_raises Z 0%Z nearest_cv (1 # 2)
              (3602879701896397 # 36028797018963968) (100, 200)%Z 56 111
              (ramp 70 40) counting_world)
    as (_ & _ & Hrun);
    [discriminate | discriminate | discriminate | discriminate
    | vm_compute; reflexivity |].
  exact Hrun.
Defined.

(** X13 at the scale 0.5 and a 100 by 200 image. *)
Lemma form_test_pad_target_witness :
  exists dpi_h dpi_w,
    dpi_extent 100 (Finite (1 # 2)) = Ok dpi_h /\
    dpi_extent 200 (Finite (1 # 2)) = Ok dpi_w /\
    (0 <= dpi_h <= 100)%Z /\ (0 <= dpi_w <= 200)%Z.
Proof.
  destruct (form_test_pad_target (100, 200)%Z
              (literal (1 # 2), literal (1 # 4))
              default_random_scale_limit default_random_rotate_limit
              (1 # 2) 100 200)
    as (_ & Hdpi);
    [discriminate | discriminate | discriminate | discriminate
    | discriminate | discriminate |].
  exact Hdpi.
Defined.

(** X12 at images of at most 100 by 200, the factor 1.1 and the 55 by
    110 ramp: the frame is 56 by 111. *)
Lemma default_form_never_crops_witness :
  exists res,
    randomly_displace_and_pad 0%Z (ramp 55 110) (56, 111)%Z true
      counting_world = (Ok res, drawn 2 counting_world) /\
    stdout (drawn 2 counting_world) = stdout counting_world /\
    shape res = (56, 111).
Proof.
  destruct (default_form_never_crops 0%Z (100, 200)%Z 100 200
              (2476979795053773 # 2251799813685248) (ramp 55 110)
              counting_world)
    as (padded_h & padded_w & res & Hp & _ & _ & Hrun & Hout & Hshape);
    [discriminate | discriminate | discriminate | discriminate
    | discriminate | discriminate
    | right; exists 50%Z; change (height (ramp 55 110)) with 55;
      split; vm_compute; reflexivity
    | right; exists 100%Z; change (width (ramp 55 110)) with 110;
      split; vm_compute; reflexivity |].
  assert (Hp' : padded_size_of default_scale default_random_scale_limit
                  (100, 200)%Z = Ok (56, 111)%Z)
    by (vm_compute; reflexivity).
  rewrite Hp' in Hp. injection Hp as <- <-.
  exists res. split; [exact Hrun |]. split; [exact Hout | exact Hshape].
Defined.
